(** * greenhouse-graphs: the greenhouse API client and its date-range cache

    A shallow embedding of [lib/greenhouseapi] (classes [GreenhouseApi],
    [DateLookupCache] and [Greenhouse]) together with the properties of the
    incremental fetch cache: serialisation of fetches, boundary handling,
    append-only growth, error behaviour and reset isolation.

    Promises are modelled by an explicit state per promise of the
    [currentFetch] chain; the event loop, the clock ([moment()]) and the HTTP
    transport ([axios]) are the environment, which drives the model through
    events. *)

From stdpp Require Import prelude strings.
From Stdlib Require Import ZArith QArith Qround Lia DecimalString DecimalZ.

Set Default Proof Using "Type".

Open Scope Z_scope.

(** ** Timestamps (the [moment] library)

    A moment is an instant, the number of milliseconds since the epoch, or
    the invalid moment. What [moment()] reads from the clock is an instant.
    [moment] itself is an external library: its string rendering [format],
    its string parser and its subtraction of days are parameters of the
    development (Section variables below). A number of days is a JavaScript
    number; the model has the finite ones, as rationals. *)

Inductive Moment : Type :=
| At (ms : Z)
| InvalidDate.

Definition msPerDay : Z := 86400000.

(** ** Records, errors, promise states *)

(** An item of a range response; [when] is a string on the wire and a
    moment once the client has parsed it. The other members of the JSON
    object are carried along untouched. *)
Record Item (W : Type) : Type := mkItem {
  when : W;
  rest : list (string * string)
}.
Arguments mkItem {W} _ _.
Arguments when {W} _.
Arguments rest {W} _.

Definition Entry : Type := Item Z.

(** Why a promise was rejected: the error of the failed HTTP request, or
    the TypeError raised when [response.data.items] cannot be iterated. *)
Inductive Err : Type :=
| TransportError (reason : string)
| MalformedResponseError.

(** What a promise of the chain was fulfilled with: [null] for the promise
    made by the constructor, the cache list for a fetch. *)
Inductive Value : Type :=
| VNull
| VCache (l : list Entry).

(** State of one promise of the [currentFetch] chain. A pending promise is
    [Queued] while its [then] callback has not run, and [InFlight] once
    [fetchNow] ran and the promise follows the getter's promise. *)
Inductive PState : Type :=
| Queued
| InFlight
| Fulfilled (v : Value)
| Rejected (e : Err).

Definition settled (p : PState) : Prop :=
  match p with
  | Fulfilled _ | Rejected _ => True
  | Queued | InFlight => False
  end.

Definition is_fulfilled (p : PState) : Prop :=
  match p with
  | Fulfilled _ => True
  | _ => False
  end.

(** The closures handed to [DateLookupCache] by [Greenhouse]. *)
Inductive Getter : Type :=
| LogsGetter (logLevel : string)
| HistoryGetter (stat : string).

(** One execution of [fetchNow] (history variable): the call of [fetch()]
    it belongs to (its position in the chain), the bounds it computed and
    whether the getter was invoked. *)
Record Exec : Type := mkExec {
  ex_call : nat;
  ex_start : Moment;
  ex_end : Z;
  ex_getter : bool
}.

(** ** DateLookupCache *)

Record DateLookupCache : Type := mkCache {
  getter : Getter;
  initialTimeAgoDays : Q;
  lastEndTime : option Z;
  cache : list Entry;
  (** [currentFetch] is the last promise of the chain; promise [0] is the
      one made by the constructor, promise [k] the one returned by the
      [k]-th call of [fetch()]. *)
  chain : list PState;
  (** executions of [fetchNow], oldest first *)
  execs : list Exec
}.

(** [new DateLookupCache(initialTimeAgoDays, getter)] *)
Definition new_cache (days : Q) (g : Getter) : DateLookupCache :=
  {| getter := g;
     initialTimeAgoDays := days;
     lastEndTime := None;
     cache := [];
     chain := [Fulfilled VNull];
     execs := [] |}.

Definition set_promise (k : nat) (p : PState) (c : DateLookupCache)
  : DateLookupCache :=
  {| getter := getter c;
     initialTimeAgoDays := initialTimeAgoDays c;
     lastEndTime := lastEndTime c;
     cache := cache c;
     chain := <[k := p]> (chain c);
     execs := execs c |}.

(** [fetch()]: chain a new promise behind [currentFetch]. *)
Definition fetch (c : DateLookupCache) : DateLookupCache :=
  {| getter := getter c;
     initialTimeAgoDays := initialTimeAgoDays c;
     lastEndTime := lastEndTime c;
     cache := cache c;
     chain := chain c ++ [Queued];
     execs := execs c |}.

(** What [fetchNow] returns: a promise already resolved with the cache, or
    the promise of the getter called on [(start, end)]. *)
Inductive FetchNowResult : Type :=
| Resolved (l : list Entry)
| AwaitGetter (start : Moment) (end_ : Z).

(** The [then] callback of [fetchNow]: save the new data. *)
Definition save_data (c : DateLookupCache) (data : list Entry)
  : DateLookupCache :=
  {| getter := getter c;
     initialTimeAgoDays := initialTimeAgoDays c;
     lastEndTime := lastEndTime c;
     cache := cache c ++ data;
     chain := chain c;
     execs := execs c |}.

Definition log_exec (x : Exec) (c : DateLookupCache) : DateLookupCache :=
  {| getter := getter c;
     initialTimeAgoDays := initialTimeAgoDays c;
     lastEndTime := lastEndTime c;
     cache := cache c;
     chain := chain c;
     execs := execs c ++ [x] |}.

(** What the environment does to a cache instance. *)
Inductive Event : Type :=
| CallFetch
    (* a caller invokes [fetch()] *)
| RunJob (k : nat) (now1 now2 : Z)
    (* the event loop runs the [then] reaction of promise [k] *)
| GetterFulfil (k : nat) (data : list Entry)
    (* the getter promise awaited by promise [k] fulfils *)
| GetterReject (k : nat) (e : Err).
    (* the getter promise awaited by promise [k] rejects *)

(** ** The HTTP transport ([axios]) and the API client *)

Record GreenhouseApi : Type := mkApi { baseUrl : string }.

Definition DEFAULT_BASE_URL : string := "http://localhost:8096".

Module LogLevel.
Definition Debug : string := "debug".
Definition Info : string := "info".
Definition Warn : string := "warn".
Definition Error : string := "error".
End LogLevel.

Module StatType.
Definition Temperature : string := "temperature".
Definition Humidity : string := "humidity".
Definition Water : string := "water".
Definition Fan : string := "fan".
End StatType.

(** A date argument of the client: a moment, a [Date] (both an instant in
    milliseconds) or a string to be parsed. *)
Inductive DateArg : Type :=
| OfMoment (m : Moment)
| OfDate (ms : Z)
| OfString (s : string).

(** The JSON body of a response, as far as the client looks at it: with an
    [items] array, or without one. *)
Inductive ResponseData : Type :=
| WithItems (items : list (Item string))
| WithoutItems.

(** How [axios.get] settles: a response, or a failed request. *)
Inductive HttpResult : Type :=
| HttpOk (data : ResponseData)
| HttpFail (reason : string).

(** How a promise returned by the client settles. *)
Inductive Outcome (A : Type) : Type :=
| Resolves (a : A)
| Rejects (e : Err).
Arguments Resolves {A} _.
Arguments Rejects {A} _.

(** [axios.get(url).then(f)]: the URL requested and what the returned
    promise does with the transport's result. *)
Record Request (A : Type) : Type := mkRequest {
  url : string;
  on_result : HttpResult -> Outcome A
}.
Arguments mkRequest {A} _ _.
Arguments url {A} _.
Arguments on_result {A} _.

(** A rendering and a parser with the resolution of [moment]'s default
    format, one second: the decimal number of seconds since the epoch. They
    instantiate the parameters below on concrete inputs. *)
Definition seconds_format (m : Moment) : string :=
  match m with
  | At ms => NilEmpty.string_of_int (Z.to_int (ms / 1000))
  | InvalidDate => "Invalid date"
  end.

Definition seconds_parse (s : string) : Z :=
  match NilEmpty.int_of_string s with
  | Some d => Z.of_int d * 1000
  | None => 0
  end.

(** A subtraction of days as [moment] does it in a zone with a fixed
    offset: the number of days is rounded to a whole number, half away from
    zero, a day has 86400000 milliseconds, and an instant out of the range
    of a [Date] is the invalid moment. It instantiates the parameter below
    on concrete inputs. *)
Definition abs_round (d : Q) : Z :=
  if Qle_bool 0 d
  then Qfloor (d + (1 # 2))%Q
  else - Qfloor (- d + (1 # 2))%Q.

Definition fixed_zone_subtract (d : Q) (m : Z) : Moment :=
  let r := m - abs_round d * msPerDay in
  if decide (-8640000000000000 <= r <= 8640000000000000)
  then At r
  else InvalidDate.

Section Moment.

(** [m.format()] for a moment [m]. *)
Variable format : Moment -> string.
(** [moment(s)] for a string [s]. *)
Variable parse : string -> Z.
(** [moment().subtract(d, 'days')] when [moment()] reads the instant [m]. *)
Variable subtract_days : Q -> Z -> Moment.

(** [moment(x)] *)
Definition moment (x : DateArg) : Moment :=
  match x with
  | OfMoment m => m
  | OfDate ms => At ms
  | OfString s => At (parse s)
  end.

(** The first line of [fetchNow]; [now] is what [moment()] reads. *)
Definition fetch_start (c : DateLookupCache) (now : Z) : Moment :=
  match lastEndTime c with
  | None => subtract_days (initialTimeAgoDays c) now
  | Some l => At l
  end.

(** The callback shared by [logs] and [history]: parse every [when]
    ([moment(item.when)], on the string of the wire), then reverse the
    array. *)
Definition read_items (data : ResponseData) : Outcome (list Entry) :=
  match data with
  | WithItems items =>
    Resolves
      (reverse ((fun item => mkItem (parse (when item)) (rest item))
                  <$> items))
  | WithoutItems => Rejects MalformedResponseError
  end.

Definition then_read_items (r : HttpResult) : Outcome (list Entry) :=
  match r with
  | HttpOk data => read_items data
  | HttpFail reason => Rejects (TransportError reason)
  end.

(** [api.logs(logLevel, start, end)] *)
Definition logs (api : GreenhouseApi) (logLevel : string) (start end_ : DateArg)
  : Request (list Entry) :=
  let start := format (moment start) in
  let end_ := format (moment end_) in
  mkRequest
    (baseUrl api +:+ "/logs/" +:+ logLevel +:+ "/" +:+ start +:+ "/" +:+ end_)
    then_read_items.

(** [api.history(stat, start, end)] *)
Definition history (api : GreenhouseApi) (stat : string) (start end_ : DateArg)
  : Request (list Entry) :=
  let start := format (moment start) in
  let end_ := format (moment end_) in
  mkRequest
    (baseUrl api +:+ "/" +:+ stat +:+ "/history/" +:+ start +:+ "/" +:+ end_)
    then_read_items.

(** Calling the closure bound to a cache. *)
Definition call_getter (api : GreenhouseApi) (g : Getter) (start : Moment)
    (end_ : Z) : Request (list Entry) :=
  match g with
  | LogsGetter logLevel =>
    logs api logLevel (OfMoment start) (OfMoment (At end_))
  | HistoryGetter stat =>
    history api stat (OfMoment start) (OfMoment (At end_))
  end.


(** [fetchNow()], with the two clock readings of its two [moment()]
    calls. *)
Definition fetchNow (c : DateLookupCache) (now1 now2 : Z)
  : DateLookupCache * FetchNowResult :=
  let start := fetch_start c now1 in
  let end_ := now2 in
  let c' := {| getter := getter c;
               initialTimeAgoDays := initialTimeAgoDays c;
               lastEndTime := Some end_;
               cache := cache c;
               chain := chain c;
               execs := execs c |} in
  if decide (format start = format (At end_))
  then (c', Resolved (cache c'))
  else (c', AwaitGetter start end_).

(** The reaction of promise [k = S j], registered on promise [j] by
    [fetch()]: it runs once promise [j] is settled. *)
Definition run_job (c : DateLookupCache) (k : nat) (now1 now2 : Z)
  : DateLookupCache :=
  match k with
  | O => c
  | S j =>
    match chain c !! k, chain c !! j with
    | Some Queued, Some (Fulfilled _) =>
      let '(c', r) := fetchNow c now1 now2 in
      match r with
      | Resolved l =>
        set_promise k (Fulfilled (VCache l))
          (log_exec (mkExec k (fetch_start c now1) now2 false) c')
      | AwaitGetter s e =>
        set_promise k InFlight (log_exec (mkExec k s e true) c')
      end
    | Some Queued, Some (Rejected e) => set_promise k (Rejected e) c
    | _, _ => c
    end
  end.

Definition step (c : DateLookupCache) (ev : Event) : DateLookupCache :=
  match ev with
  | CallFetch => fetch c
  | RunJob k now1 now2 => run_job c k now1 now2
  | GetterFulfil k data =>
    match chain c !! k with
    | Some InFlight =>
      let c' := save_data c data in
      set_promise k (Fulfilled (VCache (cache c'))) c'
    | _ => c
    end
  | GetterReject k e =>
    match chain c !! k with
    | Some InFlight => set_promise k (Rejected e) c
    | _ => c
    end
  end.

Definition run (c : DateLookupCache) (evs : list Event) : DateLookupCache :=
  foldl step c evs.

Definition reachable (c : DateLookupCache) : Prop :=
  exists days g evs, c = run (new_cache days g) evs.


(** ** Greenhouse: the facade over five caches *)

Definition DEFAULT_STAT_LOOKUP_DAYS : Q := 7.
Definition DEFAULT_LOG_LOOKUP_DAYS : Q := 7.
Definition DEFAULT_LOG_LEVEL : string := LogLevel.Info.

Record Greenhouse : Type := mkGreenhouse {
  api : GreenhouseApi;
  _logs : DateLookupCache;
  _temperature : DateLookupCache;
  _humidity : DateLookupCache;
  _fan : DateLookupCache;
  _water : DateLookupCache
}.

Definition _statCache (lookupDays : Q) (stat : string) : DateLookupCache :=
  new_cache lookupDays (HistoryGetter stat).

Definition resetLogHistory (logLevel : string) (lookupDays : Q) (g : Greenhouse)
  : Greenhouse :=
  {| api := api g;
     _logs := new_cache lookupDays (LogsGetter logLevel);
     _temperature := _temperature g;
     _humidity := _humidity g;
     _fan := _fan g;
     _water := _water g |}.

Definition resetStatHistory (lookupDays : Q) (g : Greenhouse) : Greenhouse :=
  {| api := api g;
     _logs := _logs g;
     _temperature := _statCache lookupDays StatType.Temperature;
     _humidity := _statCache lookupDays StatType.Humidity;
     _fan := _statCache lookupDays StatType.Fan;
     _water := _statCache lookupDays StatType.Water |}.

(** The options object; an absent member takes its default. *)
Record Options : Type := mkOptions {
  opt_baseUrl : option string;
  opt_statDays : option Q;
  opt_logLevel : option string;
  opt_logDays : option Q
}.

(** [new Greenhouse(options)] *)
Definition new_Greenhouse (o : Options) : Greenhouse :=
  let a := mkApi (default DEFAULT_BASE_URL (opt_baseUrl o)) in
  let logLevel := default DEFAULT_LOG_LEVEL (opt_logLevel o) in
  let logDays := default DEFAULT_LOG_LOOKUP_DAYS (opt_logDays o) in
  let statDays := default DEFAULT_STAT_LOOKUP_DAYS (opt_statDays o) in
  {| api := a;
     _logs := new_cache logDays (LogsGetter logLevel);
     _temperature := _statCache statDays StatType.Temperature;
     _humidity := _statCache statDays StatType.Humidity;
     _fan := _statCache statDays StatType.Fan;
     _water := _statCache statDays StatType.Water |}.

Inductive Series : Type :=
| SLogs
| STemperature
| SHumidity
| SFan
| SWater.

Definition series_cache (s : Series) (g : Greenhouse) : DateLookupCache :=
  match s with
  | SLogs => _logs g
  | STemperature => _temperature g
  | SHumidity => _humidity g
  | SFan => _fan g
  | SWater => _water g
  end.

Definition with_series (s : Series) (c : DateLookupCache) (g : Greenhouse)
  : Greenhouse :=
  {| api := api g;
     _logs := match s with SLogs => c | _ => _logs g end;
     _temperature := match s with STemperature => c | _ => _temperature g end;
     _humidity := match s with SHumidity => c | _ => _humidity g end;
     _fan := match s with SFan => c | _ => _fan g end;
     _water := match s with SWater => c | _ => _water g end |}.

(** What happens to a facade: a caller invokes [logs()], [temperature()],
    ...; the event loop runs a reaction of a cache; the HTTP request of a
    cache's getter settles; a caller resets a group of caches. *)
Inductive GEvent : Type :=
| Call (s : Series)
| Job (s : Series) (k : nat) (now1 now2 : Z)
| Settle (s : Series) (k : nat) (r : HttpResult)
| ResetLogs (logLevel : string) (lookupDays : Q)
| ResetStats (lookupDays : Q).

(** The cache event that the settling of the getter's request amounts to. *)
Definition getter_event (k : nat) (r : HttpResult) : Event :=
  match then_read_items r with
  | Resolves data => GetterFulfil k data
  | Rejects e => GetterReject k e
  end.

Definition gstep (g : Greenhouse) (ev : GEvent) : Greenhouse :=
  match ev with
  | Call s => with_series s (step (series_cache s g) CallFetch) g
  | Job s k now1 now2 =>
    with_series s (step (series_cache s g) (RunJob k now1 now2)) g
  | Settle s k r =>
    with_series s (step (series_cache s g) (getter_event k r)) g
  | ResetLogs logLevel lookupDays => resetLogHistory logLevel lookupDays g
  | ResetStats lookupDays => resetStatHistory lookupDays g
  end.

Definition grun (g : Greenhouse) (evs : list GEvent) : Greenhouse :=
  foldl gstep g evs.

Global Instance Series_eq_dec : EqDecision Series.
Proof. solve_decision. Defined.

(** The series whose cache an event of the facade is addressed to. *)
Definition touches (ev : GEvent) (s : Series) : bool :=
  match ev with
  | Call s' | Job s' _ _ _ | Settle s' _ _ => bool_decide (s' = s)
  | ResetLogs _ _ => bool_decide (s = SLogs)
  | ResetStats _ => bool_decide (s <> SLogs)
  end.

(** The request a cache's getter sends for an execution of [fetchNow]. *)
Definition request_of (g : Greenhouse) (s : Series) (x : Exec)
  : Request (list Entry) :=
  call_getter (api g) (getter (series_cache s g)) (ex_start x) (ex_end x).

(** ** Orders and predicates used in the statements *)

(** [lastEndTime] compared as the spec does: unset is below everything. *)
Definition boundary_le (a b : option Z) : Prop :=
  match a, b with
  | None, _ => True
  | Some _, None => False
  | Some x, Some y => x <= y
  end.

(** The clock readings an event makes, in order. *)
Definition readings (ev : Event) : list Z :=
  match ev with
  | RunJob _ now1 now2 => [now1; now2]
  | _ => []
  end.

Definition readings_of (evs : list Event) : list Z :=
  concat (readings <$> evs).

(** A clock that never runs backwards, from reading [lb] on. *)
Fixpoint monotone_from (lb : Z) (l : list Z) : Prop :=
  match l with
  | [] => True
  | t :: l' => lb <= t /\ monotone_from t l'
  end.

Definition clock_monotone (l : list Z) : Prop :=
  match l with
  | [] => True
  | t :: l' => monotone_from t l'
  end.

(** The job events that drain a chain from promise [a] on. *)
Definition drain_jobs (a n : nat) : list Event :=
  (fun j => RunJob j 0 0) <$> seq a n.

(** Shape of a chain: promise [0] is the constructor's; a promise whose
    reaction ran has a settled predecessor; behind a rejected promise there
    are only promises rejected alike or still queued. *)
Record chain_ok (l : list PState) : Prop := mkChainOk {
  ok_head : l !! 0%nat = Some (Fulfilled VNull);
  ok_started : forall j p, l !! S j = Some p -> p <> Queued ->
      exists q, l !! j = Some q /\ settled q;
  ok_poison : forall j e p, l !! j = Some (Rejected e) ->
      l !! S j = Some p -> p = Queued \/ p = Rejected e
}.

(** The executions of [fetchNow] against the chain and the boundary. *)
Record execs_ok (c : DateLookupCache) : Prop := mkExecsOk {
  ok_ids : forall i x, execs c !! i = Some x -> ex_call x = S i;
  ok_execs_started : forall k, (1 <= k <= length (execs c))%nat ->
      exists p q, chain c !! k = Some p /\ p <> Queued /\
                  chain c !! pred k = Some q /\ is_fulfilled q;
  ok_started_execs : forall j p q, chain c !! S j = Some p -> p <> Queued ->
      chain c !! j = Some q -> is_fulfilled q -> (S j <= length (execs c))%nat;
  ok_last_end : lastEndTime c = ex_end <$> last (execs c);
  ok_linked : forall i x y, execs c !! i = Some x -> execs c !! S i = Some y ->
      ex_start y = At (ex_end x);
  ok_first : forall x, execs c !! 0%nat = Some x -> exists now,
      ex_start x = subtract_days (initialTimeAgoDays c) now;
  ok_inflight : forall k, chain c !! k = Some InFlight ->
      exists x, last (execs c) = Some x /\ ex_call x = k /\ ex_getter x = true
}.

(** Invariant of a reachable cache. *)
Definition cache_inv (c : DateLookupCache) : Prop :=
  chain_ok (chain c) /\ execs_ok c.

(** ** More of the facade and of the cache, for the further properties *)

(** The stat a series is the history of; the logs series has none. *)
Definition stat_of (s : Series) : option string :=
  match s with
  | SLogs => None
  | STemperature => Some StatType.Temperature
  | SHumidity => Some StatType.Humidity
  | SFan => Some StatType.Fan
  | SWater => Some StatType.Water
  end.

(** The log level the logs cache is bound to after a sequence of events. *)
Definition log_level_after (logLevel : string) (evs : list GEvent) : string :=
  foldl (fun lvl ev => match ev with ResetLogs l _ => l | _ => lvl end)
        logLevel evs.

(** The events that serve the promises [a], ..., [a + n - 1] one after the
    other: the reaction of each runs (reading the clock) and then its
    getter succeeds. *)
Definition serve (now1 now2 : nat -> Z) (answer : nat -> list Entry)
    (a n : nat) : list Event :=
  concat ((fun k => [RunJob k (now1 k) (now2 k); GetterFulfil k (answer k)])
            <$> seq a n).

(** ** The chart component ([Temperature.vue])

    Of [updateData] the model has the call of [greenhouse.temperature()]
    and what its callbacks do to [data]. The member [fahrenheit] that the
    first callback adds to the items (floating-point arithmetic) and the
    path that [calculatePath] draws with d3 are left out. *)

(** The second callback of [updateData], up to the assignment of [data]. *)
Definition last_100 {A : Type} (items : list A) : list A :=
  if decide (100 < length items)%nat
  then drop (length items - 100) items
  else items.

Record Component : Type := mkComponent {
  greenhouse : Greenhouse;
  data : list Entry;
  updateTimer : option nat;
  (** the environment: the intervals set by the component and not yet
      cleared, and the id that the next [setInterval] returns *)
  intervals : list nat;
  next_interval : nat;
  (** the promises of [temperature()] whose callbacks have run: those up
      to this position of the chain *)
  delivered : nat
}.

(** [data()] of a component over the facade [g]. *)
Definition new_component (g : Greenhouse) (next : nat) : Component :=
  {| greenhouse := g;
     data := [];
     updateTimer := None;
     intervals := [];
     next_interval := next;
     delivered := 0 |}.

(** [const greenhouse = new Greenhouse({statDays: 1})] *)
Definition the_greenhouse : Greenhouse :=
  new_Greenhouse (mkOptions None (Some 1%Q) None None).

(** [endUpdates()] *)
Definition endUpdates (c : Component) : Component :=
  match updateTimer c with
  | Some id =>
    {| greenhouse := greenhouse c;
       data := data c;
       updateTimer := None;
       intervals := filter (fun i => i <> id) (intervals c);
       next_interval := next_interval c;
       delivered := delivered c |}
  | None => c
  end.

(** [updateData()]: one more call of [temperature()]; its callbacks run
    at [Deliver]. *)
Definition updateData (c : Component) : Component :=
  {| greenhouse := gstep (greenhouse c) (Call STemperature);
     data := data c;
     updateTimer := updateTimer c;
     intervals := intervals c;
     next_interval := next_interval c;
     delivered := delivered c |}.

(** [startUpdates()] *)
Definition startUpdates (c : Component) : Component :=
  let c := updateData (endUpdates c) in
  {| greenhouse := greenhouse c;
     data := data c;
     updateTimer := Some (next_interval c);
     intervals := intervals c ++ [next_interval c];
     next_interval := S (next_interval c);
     delivered := delivered c |}.

(** The callbacks of the next promise of [temperature()], once it is
    settled: a fulfilled one hands its list to the callbacks, a rejected
    one skips them. *)
Definition deliver (c : Component) : Component :=
  let k := S (delivered c) in
  match chain (_temperature (greenhouse c)) !! k with
  | Some (Fulfilled (VCache l)) =>
    {| greenhouse := greenhouse c;
       data := last_100 l;
       updateTimer := updateTimer c;
       intervals := intervals c;
       next_interval := next_interval c;
       delivered := k |}
  | Some (Fulfilled VNull) | Some (Rejected _) =>
    {| greenhouse := greenhouse c;
       data := data c;
       updateTimer := updateTimer c;
       intervals := intervals c;
       next_interval := next_interval c;
       delivered := k |}
  | _ => c
  end.

Definition with_greenhouse (g : Greenhouse) (c : Component) : Component :=
  {| greenhouse := g;
     data := data c;
     updateTimer := updateTimer c;
     intervals := intervals c;
     next_interval := next_interval c;
     delivered := delivered c |}.

(** What happens to a component: it is mounted or destroyed, an interval
    fires, the event loop runs a reaction of the temperature cache, the
    request of its getter settles, the callbacks of [updateData] run. *)
Inductive CEvent : Type :=
| Mounted
| Destroyed
| Tick (id : nat)
| LoopJob (k : nat) (now1 now2 : Z)
| LoopSettle (k : nat) (r : HttpResult)
| Deliver.

Definition cstep (c : Component) (ev : CEvent) : Component :=
  match ev with
  | Mounted => startUpdates c
  | Destroyed => endUpdates c
  | Tick id => if decide (id ∈ intervals c) then updateData c else c
  | LoopJob k now1 now2 =>
    with_greenhouse (gstep (greenhouse c) (Job STemperature k now1 now2)) c
  | LoopSettle k r =>
    with_greenhouse (gstep (greenhouse c) (Settle STemperature k r)) c
  | Deliver => deliver c
  end.

Definition crun (c : Component) (evs : list CEvent) : Component :=
  foldl cstep c evs.

(** What the promises of the chain were fulfilled with, against the
    cache. *)
Record values_ok (c : DateLookupCache) : Prop := mkValuesOk {
  val_prefix : forall k l, chain c !! k = Some (Fulfilled (VCache l)) ->
      l `prefix_of` cache c;
  val_mono : forall i j li lj, (i <= j)%nat ->
      chain c !! i = Some (Fulfilled (VCache li)) ->
      chain c !! j = Some (Fulfilled (VCache lj)) -> li `prefix_of` lj;
  val_latest : forall k l, chain c !! k = Some (Fulfilled (VCache l)) ->
      (forall v, chain c !! S k <> Some (Fulfilled v)) -> l = cache c;
  val_none : (forall k v, chain c !! S k <> Some (Fulfilled v)) -> cache c = [];
  val_null : forall k, chain c !! k = Some (Fulfilled VNull) -> k = 0%nat
}.

(** The component's own bookkeeping of its interval. *)
Definition timer_ok (next : nat) (c : Component) : Prop :=
  intervals c = option_list (updateTimer c) /\
  (next <= next_interval c)%nat /\
  forall id, updateTimer c = Some id -> (next <= id < next_interval c)%nat.

(** What a run of the component keeps: its facade is the one it started
    with, moved by events of the temperature series only; the callbacks
    have run up to a settled promise; [data] is what the callbacks of that
    promise left, and holds at most 100 items. *)
Definition component_ok (g0 : Greenhouse) (c : Component) : Prop :=
  (exists gevs, greenhouse c = grun g0 gevs /\
     Forall (fun ev => forall s, s <> STemperature -> touches ev s = false)
            gevs) /\
  (exists p, chain (_temperature (greenhouse c)) !! delivered c = Some p /\
     settled p) /\
  (forall l, chain (_temperature (greenhouse c)) !! delivered c
               = Some (Fulfilled (VCache l)) -> data c = last_100 l) /\
  (length (data c) <= 100)%nat.

(** ** The chain *)

Lemma chain_ok_new : chain_ok [Fulfilled VNull].
Proof.
  split; [done | |]; intros j ? p H; destruct j; simpl in H; discriminate.
Qed.

Lemma chain_ok_snoc l : chain_ok l -> chain_ok (l ++ [Queued]).
Proof.
  intros [Hh Hs Hp]. split.
  - apply lookup_app_l_Some, Hh.
  - intros j p Hj Hq. apply lookup_snoc_Some in Hj as [[_ Hj]|[_ Hj]]; [|congruence].
    destruct (Hs j p Hj Hq) as (q & Hq1 & Hq2).
    exists q. split; [by apply lookup_app_l_Some | done].
  - intros j e p Hj HSj.
    apply lookup_snoc_Some in Hj as [[_ Hj]|[_ Hj]]; [|discriminate].
    apply lookup_snoc_Some in HSj as [[_ HSj]|[_ HSj]]; [|by left].
    eauto.
Qed.

Lemma unsettled_next_queued l k old p :
  chain_ok l -> l !! k = Some old -> ~ settled old -> l !! S k = Some p ->
  p = Queued.
Proof.
  intros Hok Hk Hold HSk.
  destruct p as [| |v|e]; [done | exfalso ..];
    (edestruct (ok_started _ Hok k) as (q & Hq & Hset);
     [exact HSk | discriminate |]);
    rewrite Hk in Hq; injection Hq as <-; done.
Qed.

(** Settling or starting promise [S j]: allowed when its predecessor is
    settled, and a rejected predecessor passes its error on. *)
Lemma chain_ok_insert l j old p' q :
  chain_ok l -> l !! S j = Some old -> ~ settled old -> p' <> Queued ->
  l !! j = Some q -> settled q -> (forall e, q = Rejected e -> p' = Rejected e) ->
  chain_ok (<[S j := p']> l).
Proof.
  intros Hok Hk Hold Hp' Hj Hq Hrej.
  assert (Hlt : (S j < length l)%nat) by (eapply lookup_lt_Some; eauto).
  split.
  - rewrite list_lookup_insert_ne by lia. apply Hok.
  - intros i p Hi Hne. destruct (decide (S i = S j)) as [Heq|Hneq].
    + injection Heq as ->. exists q. rewrite list_lookup_insert_ne by lia. done.
    + rewrite list_lookup_insert_ne in Hi by lia.
      destruct (ok_started _ Hok i p Hi Hne) as (q' & Hq1 & Hq2).
      destruct (decide (i = S j)) as [->|]; [congruence|].
      exists q'. by rewrite list_lookup_insert_ne by lia.
  - intros i e p Hi HSi. destruct (decide (i = S j)) as [->|Hneq].
    + rewrite list_lookup_insert_eq in Hi by lia. injection Hi as ->.
      rewrite list_lookup_insert_ne in HSi by lia.
      left. by apply (unsettled_next_queued l (S j) old).
    + rewrite list_lookup_insert_ne in Hi by lia.
      destruct (decide (S i = S j)) as [Heq|Hne2].
      * injection Heq as ->. rewrite list_lookup_insert_eq in HSi by lia.
        injection HSi as <-. right. apply Hrej. congruence.
      * rewrite list_lookup_insert_ne in HSi by lia. eapply ok_poison; eauto.
Qed.

(** Every promise before one whose reaction ran is settled. *)
Lemma started_all_settled l :
  chain_ok l -> forall k p, l !! k = Some p -> p <> Queued ->
  forall j, (j < k)%nat -> exists q, l !! j = Some q /\ settled q.
Proof.
  intros Hok. induction k as [|k IH]; intros p Hk Hne j Hlt; [lia|].
  destruct (ok_started _ Hok k p Hk Hne) as (q & Hq & Hset).
  destruct (decide (j = k)) as [->|]; [eauto|].
  apply (IH q Hq); [by destruct q | lia].
Qed.

(** A promise in flight or fulfilled has a fulfilled predecessor. *)
Lemma running_pred_fulfilled l j p :
  chain_ok l -> l !! S j = Some p -> p = InFlight \/ is_fulfilled p ->
  exists q, l !! j = Some q /\ is_fulfilled q.
Proof.
  intros Hok Hk Hp.
  assert (Hne : p <> Queued) by (intros ->; destruct Hp as [|[]]; discriminate).
  destruct (ok_started _ Hok j p Hk Hne) as (q & Hq & Hset).
  exists q. split; [done|]. destruct q as [| |v|e]; try done.
  destruct (ok_poison _ Hok j e p Hq Hk) as [->| ->]; [done|].
  destruct Hp as [|[]]; discriminate.
Qed.

(** Behind a rejected promise everything is queued or rejected alike. *)
Lemma poisoned_after l :
  chain_ok l -> forall k e, l !! k = Some (Rejected e) ->
  forall n p, l !! (k + n)%nat = Some p -> p = Queued \/ p = Rejected e.
Proof.
  intros Hok k e Hk. induction n as [|n IH]; intros p Hp.
  - rewrite Nat.add_0_r in Hp. right. congruence.
  - replace (k + S n)%nat with (S (k + n)) in Hp by lia.
    assert (Hlt : (k + n < length l)%nat).
    { apply lookup_lt_Some in Hp. lia. }
    destruct (lookup_lt_is_Some_2 _ _ Hlt) as [q Hq].
    destruct (IH q Hq) as [->| ->].
    + left. apply (unsettled_next_queued l (k + n)%nat Queued); auto.
    + by apply (ok_poison _ Hok (k + n)%nat).
Qed.

(** ** The executions of [fetchNow] *)

Lemma cache_inv_new days g : cache_inv (new_cache days g).
Proof.
  split; [apply chain_ok_new|]. split; simpl; try done.
  - intros k Hk. lia.
  - intros [|k] Hk; discriminate.
Qed.

Lemma cache_inv_fetch c : cache_inv c -> cache_inv (fetch c).
Proof.
  intros [Hc He]. split; [by apply chain_ok_snoc|].
  destruct He as [H1 H2 H3 H4 H5 H6 H7]. split; simpl; try done.
  - intros k Hk. destruct (H2 k Hk) as (p & q & Hp & Hne & Hq & Hf).
    exists p, q. split_and!; try done; by apply lookup_app_l_Some.
  - intros j p q Hj Hne Hq Hf.
    apply lookup_snoc_Some in Hj as [[_ Hj]|[_ Hj]]; [|congruence].
    apply lookup_snoc_Some in Hq as [[_ Hq]|[_ Hq]]; [eauto|].
    subst q. destruct Hf.
  - intros k Hk. apply lookup_snoc_Some in Hk as [[_ Hk]|[_ Hk]]; [eauto|].
    discriminate.
Qed.

(** The reaction about to execute [fetchNow] belongs to the call right
    after the last one that executed. *)
Lemma exec_position c j v :
  cache_inv c -> chain c !! S j = Some Queued ->
  chain c !! j = Some (Fulfilled v) -> length (execs c) = j.
Proof.
  intros [Hc He] Hk Hj.
  assert (Hle : (j <= length (execs c))%nat).
  { destruct j as [|i]; [lia|].
    destruct (running_pred_fulfilled _ i _ Hc Hj) as (q & Hq & Hf);
      [by right|].
    by apply (ok_started_execs _ He i (Fulfilled v) q). }
  destruct (decide (S j <= length (execs c))%nat) as [Hin|]; [|lia].
  destruct (ok_execs_started _ He (S j)) as (p & q & Hp & Hne & _); [lia|].
  congruence.
Qed.

(** A promise settles, or is rejected behind a rejected one: nothing
    executes. *)
Lemma execs_ok_settle c c' j old p' :
  cache_inv c -> chain c !! S j = Some old -> ~ settled old -> settled p' ->
  (old = InFlight \/ exists e, chain c !! j = Some (Rejected e)) ->
  chain c' = <[S j := p']> (chain c) -> execs c' = execs c ->
  lastEndTime c' = lastEndTime c ->
  initialTimeAgoDays c' = initialTimeAgoDays c ->
  execs_ok c'.
Proof.
  intros [Hc He] Hk Hold Hset Hcase Hch Hex Hlast Hdays.
  assert (Hp' : p' <> Queued) by (by intros ->).
  assert (Hlt : (S j < length (chain c))%nat) by (eapply lookup_lt_Some; eauto).
  destruct He as [H1 H2 H3 H4 H5 H6 H7].
  split; rewrite ?Hch, ?Hex, ?Hlast, ?Hdays; try done.
  - intros k Hk'. destruct (H2 k Hk') as (p & q & Hp & Hne & Hq & Hf).
    destruct (decide (pred k = S j)) as [Heq|Hneq].
    { rewrite Heq, Hk in Hq. injection Hq as <-. by destruct old. }
    destruct (decide (k = S j)) as [->|Hneq2].
    + exists p', q. rewrite list_lookup_insert_eq by lia.
      rewrite list_lookup_insert_ne by lia. done.
    + exists p, q. rewrite !list_lookup_insert_ne by lia. done.
  - intros i p q Hi Hne Hq Hf.
    destruct (decide (i = S j)) as [->|Hneq].
    { rewrite list_lookup_insert_ne in Hi by lia.
      rewrite (unsettled_next_queued _ _ _ _ Hc Hk Hold Hi) in Hne. done. }
    rewrite list_lookup_insert_ne in Hq by lia.
    destruct (decide (S i = S j)) as [Heq|Hneq2].
    + injection Heq as ->. destruct Hcase as [->|[e He]].
      * by apply (H3 j InFlight q).
      * rewrite He in Hq. injection Hq as <-. destruct Hf.
    + rewrite list_lookup_insert_ne in Hi by lia. eauto.
  - intros k Hk'. destruct (decide (k = S j)) as [->|Hneq].
    + rewrite list_lookup_insert_eq in Hk' by lia. injection Hk' as ->.
      destruct Hset.
    + rewrite list_lookup_insert_ne in Hk' by lia. eauto.
Qed.

(** The reaction of promise [S j] executes [fetchNow]. *)
Lemma execs_ok_exec c c' j v p' now1 now2 b :
  cache_inv c -> chain c !! S j = Some Queued ->
  chain c !! j = Some (Fulfilled v) -> p' <> Queued ->
  (p' = InFlight -> b = true) ->
  chain c' = <[S j := p']> (chain c) ->
  execs c' = execs c ++ [mkExec (S j) (fetch_start c now1) now2 b] ->
  lastEndTime c' = Some now2 ->
  initialTimeAgoDays c' = initialTimeAgoDays c ->
  execs_ok c'.
Proof.
  intros Hinv Hk Hj Hp' Hb Hch Hex Hlast Hdays.
  pose proof (exec_position _ _ _ Hinv Hk Hj) as Hlen.
  destruct Hinv as [Hc He].
  assert (Hlt : (S j < length (chain c))%nat) by (eapply lookup_lt_Some; eauto).
  destruct He as [H1 H2 H3 H4 H5 H6 H7].
  split; rewrite ?Hch, ?Hex, ?Hlast, ?Hdays.
  - intros i x Hi. apply lookup_snoc_Some in Hi as [[_ Hi]|[Hi <-]]; [eauto|].
    simpl. lia.
  - intros k Hk'. rewrite length_app in Hk'. simpl in Hk'.
    destruct (decide (k = S j)) as [->|Hneq].
    + exists p', (Fulfilled v). rewrite list_lookup_insert_eq by lia.
      simpl. rewrite list_lookup_insert_ne by lia. done.
    + destruct (H2 k) as (p & q & Hp & Hne & Hq & Hf); [lia|].
      exists p, q. rewrite !list_lookup_insert_ne by lia. done.
  - intros i p q Hi Hne Hq Hf. rewrite length_app. simpl.
    destruct (decide (i = S j)) as [->|Hneq].
    { rewrite list_lookup_insert_ne in Hi by lia.
      rewrite (unsettled_next_queued _ _ Queued _ Hc Hk) in Hne; auto. done. }
    rewrite list_lookup_insert_ne in Hq by lia.
    destruct (decide (S i = S j)) as [Heq|Hneq2]; [lia|].
    rewrite list_lookup_insert_ne in Hi by lia.
    pose proof (H3 i p q Hi Hne Hq Hf). lia.
  - by rewrite last_snoc.
  - intros i x y Hi HSi.
    apply lookup_snoc_Some in HSi as [[_ HSi]|[HSi <-]].
    + apply lookup_snoc_Some in Hi as [[_ Hi]|[Hi _]]; [eauto|].
      apply lookup_lt_Some in HSi. lia.
    + apply lookup_snoc_Some in Hi as [[_ Hi]|[Hi _]]; [|lia].
      simpl. unfold fetch_start. rewrite H4, last_lookup.
      replace (pred (length (execs c))) with i by lia. by rewrite Hi.
  - intros x Hx. apply lookup_snoc_Some in Hx as [[_ Hx]|[Hx <-]]; [eauto|].
    simpl. exists now1. unfold fetch_start. rewrite H4.
    assert (execs c = []) as -> by (apply length_zero_iff_nil; lia). done.
  - intros k Hk'. rewrite last_snoc. eexists. split; [done|]. simpl.
    destruct (decide (k = S j)) as [->|Hneq].
    + rewrite list_lookup_insert_eq in Hk' by lia. injection Hk' as ->. auto.
    + exfalso. rewrite list_lookup_insert_ne in Hk' by lia.
      destruct (decide (k < S j)%nat) as [Hlt'|Hge].
      * destruct (started_all_settled _ Hc j (Fulfilled v) Hj) with (j := k)
          as (q & Hq & Hset); [done| |]. 
        { destruct (decide (k = j)) as [->|]; [congruence|lia]. }
        rewrite Hk' in Hq. injection Hq as <-. destruct Hset.
      * destruct (started_all_settled _ Hc k InFlight Hk') with (j := S j)
          as (q & Hq & Hset); [done|lia|].
        rewrite Hk in Hq. injection Hq as <-. destruct Hset.
Qed.

(** ** The invariant holds in every reachable state *)

Local Ltac side := solve [done | by intros [] | by intros ? [= ->]].

Lemma cache_inv_step c ev : cache_inv c -> cache_inv (step c ev).
Proof.
  intros Hinv. pose proof (proj1 Hinv) as Hc.
  destruct ev as [|k now1 now2|k data|k e]; simpl.
  - by apply cache_inv_fetch.
  - unfold run_job. destruct k as [|j]; [done|].
    destruct (chain c !! S j) as [[| | |]|] eqn:Hk; try done.
    destruct (chain c !! j) as [[| |v|e]|] eqn:Hj; try done.
    + unfold fetchNow. destruct (decide _) as [Heq|Hne]; simpl.
      * split.
        -- apply (chain_ok_insert _ _ Queued _ (Fulfilled v)); side.
        -- by apply (execs_ok_exec c _ j v (Fulfilled (VCache (cache c)))
                       now1 now2 false).
      * split.
        -- apply (chain_ok_insert _ _ Queued _ (Fulfilled v)); side.
        -- by apply (execs_ok_exec c _ j v InFlight now1 now2 true).
    + split.
      * apply (chain_ok_insert _ _ Queued _ (Rejected e)); side.
      * apply (execs_ok_settle c _ j Queued (Rejected e)); eauto; side.
  - destruct (chain c !! k) as [[| | |]|] eqn:Hk; try done.
    destruct k as [|j]; [destruct Hc as [Hh _ _]; congruence|].
    destruct (running_pred_fulfilled _ j _ Hc Hk) as (q & Hq & Hf);
      [by left|].
    split.
    + apply (chain_ok_insert _ _ InFlight _ q); try side; by destruct q.
    + apply (execs_ok_settle c _ j InFlight
               (Fulfilled (VCache (cache c ++ data)))); auto; side.
  - destruct (chain c !! k) as [[| | |]|] eqn:Hk; try done.
    destruct k as [|j]; [destruct Hc as [Hh _ _]; congruence|].
    destruct (running_pred_fulfilled _ j _ Hc Hk) as (q & Hq & Hf);
      [by left|].
    split.
    + apply (chain_ok_insert _ _ InFlight _ q); try side; by destruct q.
    + apply (execs_ok_settle c _ j InFlight (Rejected e)); auto; side.
Qed.

Lemma cache_inv_run evs : forall c, cache_inv c -> cache_inv (run c evs).
Proof.
  induction evs as [|ev evs IH]; intros c Hinv; [done|].
  apply IH, cache_inv_step, Hinv.
Qed.

Lemma reachable_inv c : reachable c -> cache_inv c.
Proof.
  intros (days & g & evs & ->). apply cache_inv_run, cache_inv_new.
Qed.

(** ** What one event does *)

(** An event either leaves the executions and the boundary alone, or it is
    the reaction of a queued promise behind a fulfilled one, which executes
    [fetchNow]. *)
Lemma step_execs c ev :
  (execs (step c ev) = execs c /\ lastEndTime (step c ev) = lastEndTime c) \/
  (exists j v now1 now2,
      ev = RunJob (S j) now1 now2 /\
      chain c !! S j = Some Queued /\ chain c !! j = Some (Fulfilled v) /\
      execs (step c ev) =
        execs c ++ [mkExec (S j) (fetch_start c now1) now2
                      (bool_decide (format (fetch_start c now1) <> format (At now2)))] /\
      lastEndTime (step c ev) = Some now2).
Proof.
  destruct ev as [|k now1 now2|k data|k e]; simpl.
  - by left.
  - unfold run_job. destruct k as [|j]; [by left|].
    destruct (chain c !! S j) as [[| | |]|] eqn:Hk; try by left.
    destruct (chain c !! j) as [[| |v|e]|] eqn:Hj; try by left.
    right. exists j, v, now1, now2. split_and!; try done.
    + unfold fetchNow. destruct (decide _) as [Heq|Hne]; simpl.
      * by rewrite bool_decide_eq_false_2 by tauto.
      * by rewrite bool_decide_eq_true_2.
    + unfold fetchNow. by destruct (decide _).
  - destruct (chain c !! k) as [[| | |]|]; by left.
  - destruct (chain c !! k) as [[| | |]|]; by left.
Qed.

Lemma step_cache c ev :
  cache (step c ev) = cache c \/
  (exists k data, ev = GetterFulfil k data /\ chain c !! k = Some InFlight /\
      cache (step c ev) = cache c ++ data).
Proof.
  destruct ev as [|k now1 now2|k data|k e]; simpl.
  - by left.
  - unfold run_job. destruct k as [|j]; [by left|].
    destruct (chain c !! S j) as [[| | |]|]; try by left.
    destruct (chain c !! j) as [[| |v|e]|]; try by left.
    unfold fetchNow. destruct (decide _); by left.
  - destruct (chain c !! k) as [[| | |]|] eqn:Hk; try by left.
    right. by exists k, data.
  - destruct (chain c !! k) as [[| | |]|]; by left.
Qed.

(** ** Serialisation *)

(** C1. Fetches of one cache are serialised: the [i]-th execution of
    [fetchNow] belongs to the [i]-th call of [fetch()] (strict FIFO order of
    issuance); when an event starts an execution, every promise of an
    earlier call is already settled, fulfilled or rejected; and each
    execution after the first starts from the end written by the execution
    before it, so a getter invoked for the second of two back-to-back calls
    sees the [lastEndTime] of the first. *)
Theorem fetch_serialized days g evs :
  let c := run (new_cache days g) evs in
  (forall i x, execs c !! i = Some x -> ex_call x = S i) /\
  (forall pre ev post x, evs = pre ++ ev :: post ->
     let b := run (new_cache days g) pre in
     execs (step b ev) = execs b ++ [x] ->
     lastEndTime b = ex_end <$> last (execs b) /\
     forall j, (j < ex_call x)%nat ->
       exists q, chain b !! j = Some q /\ settled q) /\
  (forall i x y, execs c !! i = Some x -> execs c !! S i = Some y ->
     ex_start y = At (ex_end x)).
Proof.
  intros c.
  assert (Hinv : cache_inv c) by apply cache_inv_run, cache_inv_new.
  destruct Hinv as [Hc He]. split_and!.
  - apply He.
  - intros pre ev post x _ b Hx.
    assert (Hb : cache_inv b) by apply cache_inv_run, cache_inv_new.
    split; [apply Hb|].
    destruct (step_execs b ev) as [[Hsame _]|(j & v & n1 & n2 & _ & Hk & Hj & Hex & _)].
    { rewrite Hsame in Hx. apply (f_equal length) in Hx.
      rewrite length_app in Hx. simpl in Hx. lia. }
    rewrite Hex in Hx. apply app_inj_tail in Hx as [_ <-]. simpl.
    intros i Hi. destruct (decide (i = j)) as [->|Hne]; [by eexists|].
    apply (started_all_settled _ (proj1 Hb) j (Fulfilled v)); [done|done|lia].
  - apply He.
Qed.

(** ** Appending to the cache *)

Lemma run_cache_prefix evs : forall c, cache c `prefix_of` cache (run c evs).
Proof.
  induction evs as [|ev evs IH]; intros c; [done|].
  simpl. etrans; [|apply IH].
  destruct (step_cache c ev) as [->|(k & data & _ & _ & ->)]; [done|].
  by apply prefix_app_r.
Qed.

(** C4. When the getter of a fetch succeeds with a list of records, the
    cache afterwards is the cache before followed by these records, in
    order, and the fetch resolves with the whole updated cache; no other
    event changes the cache; so over any sequence of events the cache at
    the start is a prefix of the cache at the end. *)
Theorem cache_append_only c evs :
  (forall k data, chain c !! k = Some InFlight ->
     let c' := step c (GetterFulfil k data) in
     cache c' = cache c ++ data /\
     chain c' !! k = Some (Fulfilled (VCache (cache c ++ data)))) /\
  (forall ev, cache (step c ev) = cache c \/
     exists k data, ev = GetterFulfil k data /\
       cache (step c ev) = cache c ++ data) /\
  cache c `prefix_of` cache (run c evs).
Proof.
  split_and!.
  - intros k data Hk. simpl. rewrite Hk. simpl. split; [done|].
    apply list_lookup_insert_eq. by eapply lookup_lt_Some.
  - intros ev. destruct (step_cache c ev) as [?|(k & data & ? & _ & ?)]; eauto.
  - apply run_cache_prefix.
Qed.

(** ** The bounds of a query *)


(** ** The no-op branch *)


(** ** The boundary never moves back *)

Lemma boundary_le_refl a : boundary_le a a.
Proof. destruct a; simpl; [lia|done]. Qed.

Lemma boundary_le_trans a b c :
  boundary_le a b -> boundary_le b c -> boundary_le a c.
Proof. destruct a, b, c; simpl; try done; lia. Qed.

(** One event under a clock that does not run backwards: the boundary does
    not decrease, and it stays below the clock. *)
Lemma step_boundary c ev lb rest :
  (forall l, lastEndTime c = Some l -> l <= lb) ->
  monotone_from lb (readings ev ++ rest) ->
  boundary_le (lastEndTime c) (lastEndTime (step c ev)) /\
  exists lb', (forall l, lastEndTime (step c ev) = Some l -> l <= lb') /\
              monotone_from lb' rest.
Proof.
  intros Hb Hm.
  destruct (step_execs c ev)
    as [[_ Hsame]|(j & v & n1 & n2 & -> & _ & _ & _ & Hlast)].
  - rewrite Hsame. split; [apply boundary_le_refl|].
    destruct ev as [|k n1 n2| |]; simpl in Hm; try by exists lb.
    destruct Hm as (? & ? & ?). exists n2. split; [|done].
    intros l Hl. specialize (Hb l Hl). lia.
  - rewrite Hlast. simpl in Hm. destruct Hm as (? & ? & ?). split.
    + destruct (lastEndTime c) as [l|] eqn:Hl; simpl; [|done].
      specialize (Hb l eq_refl). lia.
    + exists n2. split; [|done]. intros l [= <-]. lia.
Qed.

Lemma run_boundary evs : forall c lb,
  (forall l, lastEndTime c = Some l -> l <= lb) ->
  monotone_from lb (readings_of evs) ->
  boundary_le (lastEndTime c) (lastEndTime (run c evs)).
Proof.
  induction evs as [|ev evs IH]; intros c lb Hb Hm; [apply boundary_le_refl|].
  destruct (step_boundary c ev lb (readings_of evs) Hb Hm)
    as (Hle & lb' & Hb' & Hm').
  eapply boundary_le_trans; [exact Hle|]. by apply (IH _ lb').
Qed.

Lemma run_boundary_from evs1 : forall c lb evs2,
  (forall l, lastEndTime c = Some l -> l <= lb) ->
  monotone_from lb (readings_of (evs1 ++ evs2)) ->
  boundary_le (lastEndTime (run c evs1)) (lastEndTime (run (run c evs1) evs2)).
Proof.
  induction evs1 as [|ev evs1 IH]; intros c lb evs2 Hb Hm.
  - by apply (run_boundary evs2 c lb).
  - unfold readings_of in Hm. simpl in Hm.
    destruct (step_boundary c ev lb _ Hb Hm) as (_ & lb' & Hb' & Hm').
    by apply (IH (step c ev) lb').
Qed.

(** C6, as the code has it. Under a clock that never runs backwards, over
    any sequence of events (fetches that succeed, fail or take the no-op
    branch) [lastEndTime] at the end is at least [lastEndTime] at the
    start; the code itself does not compare the two. It is
    set to the end of a fetch when [fetchNow] executes and the query is
    issued, while the promise is still in flight; the outcome of the
    query, whichever it is, leaves it as set. *)
Theorem lastEndTime_monotone days g evs1 evs2 :
  clock_monotone (readings_of (evs1 ++ evs2)) ->
  let b := run (new_cache days g) evs1 in
  boundary_le (lastEndTime b) (lastEndTime (run b evs2)) /\
  (forall j v now1 now2,
     chain b !! S j = Some Queued -> chain b !! j = Some (Fulfilled v) ->
     let c' := step b (RunJob (S j) now1 now2) in
     lastEndTime c' = Some now2 /\
     (format (fetch_start b now1) <> format (At now2) ->
      chain c' !! S j = Some InFlight) /\
     forall k data e,
       lastEndTime (step c' (GetterFulfil k data)) = Some now2 /\
       lastEndTime (step c' (GetterReject k e)) = Some now2).
Proof.
  intros Hm b. split.
  - destruct (readings_of (evs1 ++ evs2)) as [|t l] eqn:Hr.
    + apply (run_boundary_from evs1 _ 0); [done|by rewrite Hr].
    + apply (run_boundary_from evs1 _ t); [done|]. rewrite Hr. simpl.
      simpl in Hm. split; [lia|done].
  - intros j v now1 now2 Hk Hj c'.
    assert (Hlast : lastEndTime c' = Some now2).
    { subst c'. simpl. unfold run_job. rewrite Hk, Hj.
      unfold fetchNow. by destruct (decide _). }
    split_and!; [done| |].
    + intros Hne. subst c'. simpl. unfold run_job. rewrite Hk, Hj.
      unfold fetchNow. destruct (decide _) as [|_]; [done|]. simpl.
      apply list_lookup_insert_eq. by eapply lookup_lt_Some.
    + intros k data e. split.
      * destruct (step_execs c' (GetterFulfil k data))
          as [[_ ->]|(? & ? & ? & ? & ? & _)]; [done|discriminate].
      * destruct (step_execs c' (GetterReject k e))
          as [[_ ->]|(? & ? & ? & ? & ? & _)]; [done|discriminate].
Qed.

(** ** After a rejection *)

Lemma no_inflight_when_rejected l k e i :
  chain_ok l -> l !! k = Some (Rejected e) -> l !! i = Some InFlight -> False.
Proof.
  intros Hok Hk Hi. destruct (decide (i < k)%nat) as [Hlt|Hge].
  - destruct (started_all_settled _ Hok k _ Hk) with (j := i)
      as (q & Hq & Hset); [done|done|].
    rewrite Hi in Hq. injection Hq as <-. destruct Hset.
  - replace i with (k + (i - k))%nat in Hi by lia.
    destruct (poisoned_after _ Hok k e Hk _ _ Hi); discriminate.
Qed.

(** Once a promise of the chain is rejected, an event changes nothing but
    the chain, and the rejected promise stays. *)
Lemma poisoned_step c k e ev :
  cache_inv c -> chain c !! k = Some (Rejected e) ->
  cache (step c ev) = cache c /\ lastEndTime (step c ev) = lastEndTime c /\
  execs (step c ev) = execs c /\ chain (step c ev) !! k = Some (Rejected e) /\
  (length (chain c) <= length (chain (step c ev)))%nat /\
  forall i p, chain c !! i = Some p -> settled p ->
              chain (step c ev) !! i = Some p.
Proof.
  intros [Hc He] Hk.
  destruct ev as [|i now1 now2|i data|i e']; simpl.
  - split_and!; try done.
    + by apply lookup_app_l_Some.
    + rewrite length_app. lia.
    + intros i p Hi _. by apply lookup_app_l_Some.
  - unfold run_job. destruct i as [|j]; [done|].
    destruct (chain c !! S j) as [[| | |]|] eqn:Hi; try done.
    destruct (chain c !! j) as [[| |v|e'']|] eqn:Hj; try done.
    + exfalso. destruct (decide (S j < k)%nat) as [Hlt|Hge].
      * destruct (started_all_settled _ Hc k _ Hk) with (j := S j)
          as (q & Hq & Hset); [done|done|].
        rewrite Hi in Hq. injection Hq as <-. destruct Hset.
      * assert (j <> k) by congruence.
        assert (S j <> k) by congruence.
        replace j with (k + (j - k))%nat in Hj by lia.
        destruct (poisoned_after _ Hc k e Hk _ _ Hj); discriminate.
    + simpl. split_and!; try done.
      * rewrite list_lookup_insert_ne; [done|congruence].
      * by rewrite length_insert.
      * intros i p Hp Hset. rewrite list_lookup_insert_ne; [done|].
        intros <-. rewrite Hi in Hp. injection Hp as <-. destruct Hset.
  - destruct (chain c !! i) as [[| | |]|] eqn:Hi; try done.
    destruct (no_inflight_when_rejected _ _ _ _ Hc Hk Hi).
  - destruct (chain c !! i) as [[| | |]|] eqn:Hi; try done.
    destruct (no_inflight_when_rejected _ _ _ _ Hc Hk Hi).
Qed.

Lemma poisoned_run evs : forall c k e,
  cache_inv c -> chain c !! k = Some (Rejected e) ->
  cache (run c evs) = cache c /\ lastEndTime (run c evs) = lastEndTime c /\
  execs (run c evs) = execs c /\ chain (run c evs) !! k = Some (Rejected e) /\
  (length (chain c) <= length (chain (run c evs)))%nat.
Proof.
  induction evs as [|ev evs IH]; intros c k e Hinv Hk; [done|].
  destruct (poisoned_step c k e ev Hinv Hk) as (H1 & H2 & H3 & H4 & H5 & _).
  destruct (IH (step c ev) k e (cache_inv_step _ _ Hinv) H4)
    as (I1 & I2 & I3 & I4 & I5).
  simpl. split_and!; try congruence. lia.
Qed.

(** Running the reactions of the promises from [a] on, oldest first,
    rejects them all. *)
Lemma drain_rejects k e n : forall c a,
  cache_inv c -> (k < a)%nat ->
  (forall j, (k <= j < a)%nat -> chain c !! j = Some (Rejected e)) ->
  (a + n = length (chain c))%nat ->
  forall j, (k <= j < a + n)%nat ->
    chain (run c (drain_jobs a n)) !! j = Some (Rejected e).
Proof.
  induction n as [|n IH]; intros c a Hinv Hka Hrej Hlen j Hj.
  - simpl. apply Hrej. lia.
  - unfold drain_jobs. simpl. fold (drain_jobs (S a) n).
    destruct a as [|a']; [lia|].
    assert (Hk : chain c !! k = Some (Rejected e)) by (apply Hrej; lia).
    assert (Hpre : chain c !! a' = Some (Rejected e)) by (apply Hrej; lia).
    destruct (lookup_lt_is_Some_2 (chain c) (S a')) as [p Hp]; [lia|].
    assert (Hp' : p = Queued \/ p = Rejected e).
    { apply (poisoned_after _ (proj1 Hinv) k e Hk (S a' - k)).
      by replace (k + (S a' - k))%nat with (S a') by lia. }
    assert (Hstep : chain (run_job c (S a') 0 0) !! S a' = Some (Rejected e) /\
                    length (chain (run_job c (S a') 0 0)) = length (chain c) /\
                    forall i, (k <= i < S a')%nat ->
                      chain (run_job c (S a') 0 0) !! i = Some (Rejected e)).
    { unfold run_job. rewrite Hp, Hpre. destruct Hp' as [-> | ->].
      - simpl. rewrite length_insert. split_and!; [|done|].
        + apply list_lookup_insert_eq. lia.
        + intros i Hi. rewrite list_lookup_insert_ne by lia. apply Hrej. lia.
      - split_and!; [done|done|]. intros i Hi. apply Hrej. lia. }
    destruct Hstep as (S1 & S2 & S3).
    apply (IH (run_job c (S a') 0 0) (S (S a'))).
    + apply (cache_inv_step c (RunJob (S a') 0 0) Hinv).
    + lia.
    + intros i Hi. destruct (decide (i = S a')) as [->|]; [done|].
      apply S3. lia.
    + lia.
    + lia.
Qed.

(** C3. Once a fetch of a cache has been rejected with error [e], whatever
    happens afterwards, [fetchNow] never executes again (so the getter is
    not invoked and no request is sent), the cache and [lastEndTime] stay
    as they are, no promise from the rejected one on is ever fulfilled or
    in flight, and once the event loop has run their reactions all of them,
    those of later calls of [fetch()] included, are rejected with [e]. *)
Theorem rejected_chain_stays_rejected c k e evs :
  reachable c -> chain c !! k = Some (Rejected e) ->
  let c' := run c evs in
  cache c' = cache c /\ lastEndTime c' = lastEndTime c /\
  execs c' = execs c /\
  (forall j p, (k <= j)%nat -> chain c' !! j = Some p ->
     p = Queued \/ p = Rejected e) /\
  (forall j, (k <= j < length (chain c'))%nat ->
     chain (run c' (drain_jobs (S k) (length (chain c') - S k))) !! j
       = Some (Rejected e)).
Proof.
  intros Hr Hk c'. apply reachable_inv in Hr.
  destruct (poisoned_run evs c k e Hr Hk) as (H1 & H2 & H3 & H4 & H5).
  assert (Hinv' : cache_inv c') by by apply cache_inv_run.
  split_and!; try done.
  - intros j p Hj Hp. replace j with (k + (j - k))%nat in Hp by lia.
    by apply (poisoned_after _ (proj1 Hinv') k e H4 _ _ Hp).
  - intros j Hj. apply lookup_lt_Some in H4 as Hlt.
    apply (drain_rejects k e); try done; try lia.
    intros i Hi. by replace i with k by lia.
Qed.

(** ** A getter that fails *)

(** C2, as the code has it. If the getter rejects during a fetch, the
    promise of that fetch is rejected with the getter's error, the cache
    list is what it was before, [lastEndTime] is the end that the failed
    fetch computed, and an execution of [fetchNow] on that instance starts
    from that end: the failed window is not requested again. *)
Theorem getter_rejection_keeps_cache c k e :
  reachable c -> chain c !! k = Some InFlight ->
  let c' := step c (GetterReject k e) in
  chain c' !! k = Some (Rejected e) /\ cache c' = cache c /\
  exists x, last (execs c') = Some x /\ ex_call x = k /\
    ex_getter x = true /\ lastEndTime c' = Some (ex_end x) /\
    forall now1 now2,
      fetch_start c' now1 = At (ex_end x) /\
      snd (fetchNow c' now1 now2) =
        (if decide (format (At (ex_end x)) = format (At now2))
         then Resolved (cache c) else AwaitGetter (At (ex_end x)) now2).
Proof.
  intros Hr Hk c'. apply reachable_inv in Hr as [Hc He].
  assert (Hc' : c' = set_promise k (Rejected e) c).
  { subst c'. simpl. by rewrite Hk. }
  rewrite Hc'. simpl. split_and!; try done.
  - apply list_lookup_insert_eq. by eapply lookup_lt_Some.
  - destruct (ok_inflight _ He k Hk) as (x & Hx & Hcall & Hget).
    exists x. split_and!; try done.
    + rewrite (ok_last_end _ He), Hx. done.
    + intros now1 now2.
      assert (Hs : fetch_start (set_promise k (Rejected e) c) now1
                   = At (ex_end x)).
      { unfold fetch_start. simpl. by rewrite (ok_last_end _ He), Hx. }
      split; [done|]. unfold fetchNow. rewrite Hs. by destruct (decide _).
Qed.

(** ** The API client *)

(** C8. [logs] puts the rendered start and end into the path
    [/logs/{level}/{start}/{end}] under the base URL; on a response with an
    [items] array it resolves with as many items, each with its [when]
    parsed, in the reverse of the order received. [history] does the same
    against [/{stat}/history/{start}/{end}]. *)
Theorem logs_history_contract api level stat start end_ items :
  url (logs api level start end_) =
    baseUrl api +:+ "/logs/" +:+ level +:+ "/" +:+ format (moment start)
      +:+ "/" +:+ format (moment end_) /\
  url (history api stat start end_) =
    baseUrl api +:+ "/" +:+ stat +:+ "/history/" +:+ format (moment start)
      +:+ "/" +:+ format (moment end_) /\
  on_result (history api stat start end_) = on_result (logs api level start end_) /\
  exists out,
    on_result (logs api level start end_) (HttpOk (WithItems items))
      = Resolves out /\
    length out = length items /\
    forall i item, items !! i = Some item ->
      out !! (length items - S i)%nat
        = Some (mkItem (parse (when item)) (rest item)).
Proof.
  split_and!; try done. eexists. split; [done|]. split.
  - by rewrite length_reverse, length_fmap.
  - intros i item Hi. apply lookup_lt_Some in Hi as Hlt.
    rewrite reverse_lookup by (rewrite length_fmap; lia).
    rewrite length_fmap, list_lookup_fmap.
    replace (length items - S (length items - S i))%nat with i by lia.
    by rewrite Hi.
Qed.

(** C9. [logs] and [history] fail with the transport's error when the HTTP
    request fails and with the malformed-response error when the body has
    no [items] array, and in no other case. *)
Theorem logs_history_errors api level stat start end_ r e :
  (on_result (logs api level start end_) r = Rejects e <->
   (exists reason, r = HttpFail reason /\ e = TransportError reason) \/
   (r = HttpOk WithoutItems /\ e = MalformedResponseError)) /\
  (on_result (history api stat start end_) r = Rejects e <->
   (exists reason, r = HttpFail reason /\ e = TransportError reason) \/
   (r = HttpOk WithoutItems /\ e = MalformedResponseError)).
Proof.
  simpl. assert (H : then_read_items r = Rejects e <->
    (exists reason, r = HttpFail reason /\ e = TransportError reason) \/
    (r = HttpOk WithoutItems /\ e = MalformedResponseError)); [|done].
  destruct r as [[items|]|reason]; simpl; split.
  - discriminate.
  - intros [(? & ? & _)|[? _]]; discriminate.
  - intros [= <-]. by right.
  - by intros [(? & ? & _)|[_ ->]].
  - intros [= <-]. left. by eexists.
  - intros [(? & [= <-] & ->)|[? _]]; [done|discriminate].
Qed.

(** ** The facade *)

Lemma with_series_other s s' c g :
  s <> s' -> series_cache s' (with_series s c g) = series_cache s' g.
Proof. by destruct s, s'. Qed.

Lemma gstep_untouched g ev s :
  touches ev s = false -> series_cache s (gstep g ev) = series_cache s g.
Proof.
  intros Ht. destruct ev as [s'|s' k n1 n2|s' k r|lvl d|d]; simpl in *;
    try (apply with_series_other; by apply bool_decide_eq_false_1 in Ht).
  - apply bool_decide_eq_false_1 in Ht. by destruct s.
  - apply bool_decide_eq_false_1 in Ht. destruct s; try done.
    all: exfalso; apply Ht; discriminate.
Qed.

(** C10. After [resetStatHistory(N)] the temperature, humidity, fan and
    water caches have an empty record list and an unset [lastEndTime], and
    the logs cache is the instance it was; [resetLogHistory] leaves the four
    stat caches as they were; and a sequence of events none of which is
    addressed to a series leaves the cache of that series as it was. *)
Theorem reset_isolation g N :
  let g' := resetStatHistory N g in
  (forall s, s <> SLogs ->
     cache (series_cache s g') = [] /\
     lastEndTime (series_cache s g') = None /\
     initialTimeAgoDays (series_cache s g') = N) /\
  _logs g' = _logs g /\
  (forall logLevel days s, s <> SLogs ->
     series_cache s (resetLogHistory logLevel days g) = series_cache s g) /\
  (forall evs s, Forall (fun ev => touches ev s = false) evs ->
     series_cache s (grun g evs) = series_cache s g).
Proof.
  split_and!.
  - intros s Hs. by destruct s.
  - done.
  - intros logLevel days s Hs. by destruct s.
  - intros evs s. revert g. induction evs as [|ev evs IH]; intros g Hall; [done|].
    apply Forall_cons in Hall as [Hev Hall]. simpl.
    etrans; [by apply IH|]. by apply gstep_untouched.
Qed.

(** ** Further properties of the cache *)

(** A settled promise stays as it is. *)
Lemma settled_stable c ev i p :
  chain c !! i = Some p -> settled p -> chain (step c ev) !! i = Some p.
Proof.
  intros Hi Hset.
  assert (Hins : forall k q old, chain c !! k = Some old -> ~ settled old ->
            <[k := q]> (chain c) !! i = Some p).
  { intros k q old Hk Hold. rewrite list_lookup_insert_ne; [done|].
    intros ->. rewrite Hi in Hk. by injection Hk as <-. }
  destruct ev as [|k now1 now2|k d|k e]; simpl.
  - by apply lookup_app_l_Some.
  - unfold run_job. destruct k as [|j]; [done|].
    destruct (chain c !! S j) as [[| | |]|] eqn:Hk; try done.
    destruct (chain c !! j) as [[| |v|e]|] eqn:Hj; try done.
    + unfold fetchNow. destruct (decide _); simpl;
        by apply (Hins (S j) _ Queued); [|intros []].
    + simpl. by apply (Hins (S j) _ Queued); [|intros []].
  - destruct (chain c !! k) as [[| | |]|] eqn:Hk; try done.
    simpl. by apply (Hins k _ InFlight); [|intros []].
  - destruct (chain c !! k) as [[| | |]|] eqn:Hk; try done.
    simpl. by apply (Hins k _ InFlight); [|intros []].
Qed.

Lemma step_getter c ev : getter (step c ev) = getter c.
Proof.
  destruct ev as [|k now1 now2|k d|k e]; simpl; try done.
  - unfold run_job. destruct k as [|j]; [done|].
    destruct (chain c !! S j) as [[| | |]|]; try done.
    destruct (chain c !! j) as [[| |v|e]|]; try done.
    unfold fetchNow. by destruct (decide _).
  - by destruct (chain c !! k) as [[| | |]|].
  - by destruct (chain c !! k) as [[| | |]|].
Qed.

Lemma reachable_step c ev : reachable c -> reachable (step c ev).
Proof.
  intros (days & g & evs & ->). exists days, g, (evs ++ [ev]).
  unfold run. by rewrite foldl_app.
Qed.

(** Behind a promise that is not settled, every promise is queued. *)
Lemma unsettled_rest_queued l i old :
  chain_ok l -> l !! i = Some old -> ~ settled old ->
  forall n p, l !! (i + S n)%nat = Some p -> p = Queued.
Proof.
  intros Hok Hi Hold. induction n as [|n IH]; intros p Hp.
  - replace (i + 1)%nat with (S i) in Hp by lia.
    by apply (unsettled_next_queued l i old).
  - replace (i + S (S n))%nat with (S (i + S n)) in Hp by lia.
    destruct (lookup_lt_is_Some_2 l (i + S n)) as [q Hq].
    { apply lookup_lt_Some in Hp. lia. }
    apply (unsettled_next_queued l (i + S n) q); try done.
    rewrite (IH q Hq). by intros [].
Qed.

(** X1. Single flight: while the query of a fetch is in flight, no other
    promise of the chain is in flight, no reaction job does anything (no
    second query starts), and the outcome of a getter addressed to another
    promise is ignored: only the outcome of that query, or a new call of
    [fetch()], which queues, changes the cache instance. *)
Theorem single_flight c i :
  reachable c -> chain c !! i = Some InFlight ->
  (forall j, chain c !! j = Some InFlight -> j = i) /\
  (forall k now1 now2, step c (RunJob k now1 now2) = c) /\
  (forall k d e, k <> i ->
     step c (GetterFulfil k d) = c /\ step c (GetterReject k e) = c).
Proof.
  intros Hr Hi. apply reachable_inv in Hr as [Hc He].
  assert (Huniq : forall j, chain c !! j = Some InFlight -> j = i).
  { intros j Hj.
    destruct (ok_inflight _ He i Hi) as (x & Hx & Hcx & _).
    destruct (ok_inflight _ He j Hj) as (y & Hy & Hcy & _).
    congruence. }
  split_and!; [done| |].
  - intros k now1 now2. simpl. unfold run_job. destruct k as [|j]; [done|].
    destruct (chain c !! S j) as [[| | |]|] eqn:Hk; try done.
    destruct (decide (S j < i)%nat) as [Hlt|Hge].
    { destruct (started_all_settled _ Hc i InFlight Hi) with (j := S j)
        as (q & Hq & Hset); [done|done|].
      rewrite Hk in Hq. injection Hq as <-. destruct Hset. }
    assert (S j <> i) by congruence.
    destruct (decide (j = i)) as [->|Hne]; [by rewrite Hi|].
    destruct (chain c !! j) as [q|] eqn:Hj; [|done].
    replace j with (i + S (j - i - 1))%nat in Hj by lia.
    rewrite (unsettled_rest_queued _ i InFlight Hc Hi (fun H => H) _ _ Hj).
    done.
  - intros k d e Hk. simpl.
    destruct (chain c !! k) as [[| | |]|] eqn:Hck; try done.
    by specialize (Huniq k Hck).
Qed.

Lemma values_ok_new days g : values_ok (new_cache days g).
Proof.
  split; simpl; try done.
  - intros [|k] l Hk; simpl in Hk; discriminate.
  - intros [|i] j li lj _ Hi; simpl in Hi; discriminate.
  - intros [|k] l Hk; simpl in Hk; discriminate.
  - intros [|k] Hk; [done|discriminate].
Qed.

(** No fulfilled promise comes after one that is not settled. *)
Lemma fulfilled_before_unsettled l i old k v :
  chain_ok l -> l !! i = Some old -> ~ settled old ->
  l !! k = Some (Fulfilled v) -> (k < i)%nat.
Proof.
  intros Hok Hi Hold Hk. destruct (decide (k < i)%nat) as [|Hge]; [done|].
  exfalso. destruct (decide (k = i)) as [->|Hne].
  { rewrite Hi in Hk. injection Hk as ->. by apply Hold. }
  replace k with (i + S (k - i - 1))%nat in Hk by lia.
  pose proof (unsettled_rest_queued _ i old Hok Hi Hold _ _ Hk). discriminate.
Qed.

(** Up to a fulfilled promise, every promise is fulfilled. *)
Lemma all_fulfilled_before l :
  chain_ok l -> forall j q, l !! j = Some q -> is_fulfilled q ->
  forall k, (k <= j)%nat -> exists v, l !! k = Some (Fulfilled v).
Proof.
  intros Hok. induction j as [|j IH]; intros q Hj Hf k Hk.
  - replace k with 0%nat by lia. destruct q; try done. by eexists.
  - destruct (decide (k = S j)) as [->|Hne].
    { destruct q; try done. by eexists. }
    destruct (running_pred_fulfilled _ j q Hok Hj) as (r & Hr & Hfr);
      [by right|].
    apply (IH r Hr Hfr). lia.
Qed.

(** A promise behind a fulfilled one is fulfilled with a list that extends
    the cache: the values stay in order. *)
Lemma values_ok_insert c c' i old l' :
  chain_ok (chain c) -> values_ok c ->
  chain c !! i = Some old -> ~ settled old -> (1 <= i)%nat ->
  chain c' = <[i := Fulfilled (VCache l')]> (chain c) ->
  cache c `prefix_of` l' -> cache c' = l' ->
  (exists q, chain c !! pred i = Some q /\ is_fulfilled q) ->
  values_ok c'.
Proof.
  intros Hok [V1 V2 V3 V4 V5] Hi Hold Hpos Hch Hpre Hcache (q & Hq & Hf).
  assert (Hlt : (i < length (chain c))%nat) by (by eapply lookup_lt_Some).
  split; rewrite ?Hch, ?Hcache.
  - intros k l Hk. destruct (decide (k = i)) as [->|Hne].
    + rewrite list_lookup_insert_eq in Hk by done. by injection Hk as <-.
    + rewrite list_lookup_insert_ne in Hk by done. etrans; [by eapply V1|done].
  - intros i0 j0 li lj Hij Hi0 Hj0. destruct (decide (j0 = i)) as [->|Hne].
    + rewrite list_lookup_insert_eq in Hj0 by done. injection Hj0 as <-.
      destruct (decide (i0 = i)) as [->|Hne0].
      * rewrite list_lookup_insert_eq in Hi0 by done. by injection Hi0 as <-.
      * rewrite list_lookup_insert_ne in Hi0 by done.
        etrans; [by eapply V1|done].
    + rewrite list_lookup_insert_ne in Hj0 by done.
      pose proof (fulfilled_before_unsettled _ _ _ _ _ Hok Hi Hold Hj0).
      rewrite list_lookup_insert_ne in Hi0 by lia. by apply (V2 i0 j0).
  - intros k l Hk Hnext. destruct (decide (k = i)) as [->|Hne].
    + rewrite list_lookup_insert_eq in Hk by done. by injection Hk as <-.
    + rewrite list_lookup_insert_ne in Hk by done.
      pose proof (fulfilled_before_unsettled _ _ _ _ _ Hok Hi Hold Hk) as Hki.
      exfalso. destruct (decide (S k = i)) as [<-|Hne2].
      * apply (Hnext (VCache l')). by apply list_lookup_insert_eq.
      * destruct (all_fulfilled_before _ Hok (pred i) q Hq Hf (S k))
          as (w & Hw); [lia|].
        apply (Hnext w). by rewrite list_lookup_insert_ne.
  - intros Hnone. exfalso. destruct i as [|j]; [lia|].
    apply (Hnone j (VCache l')). by apply list_lookup_insert_eq.
  - intros k Hk. destruct (decide (k = i)) as [->|Hne].
    + rewrite list_lookup_insert_eq in Hk by done. discriminate.
    + rewrite list_lookup_insert_ne in Hk by done. by apply V5.
Qed.

(** A promise becomes in flight or rejected: the values stay. *)
Lemma values_ok_unfulfilled c c' i old p' :
  values_ok c -> chain c !! i = Some old -> ~ settled old ->
  ~ is_fulfilled p' ->
  chain c' = <[i := p']> (chain c) -> cache c' = cache c ->
  values_ok c'.
Proof.
  intros [V1 V2 V3 V4 V5] Hi Hold Hp' Hch Hcache.
  assert (Hlt : (i < length (chain c))%nat) by (by eapply lookup_lt_Some).
  assert (Hsame : forall k v, <[i := p']> (chain c) !! k = Some (Fulfilled v) ->
            chain c !! k = Some (Fulfilled v)).
  { intros k v Hk. destruct (decide (k = i)) as [->|Hne].
    - rewrite list_lookup_insert_eq in Hk by done. injection Hk as ->.
      by destruct Hp'.
    - by rewrite list_lookup_insert_ne in Hk. }
  assert (Hnext : forall k, (forall v, <[i := p']> (chain c) !! S k
                                        <> Some (Fulfilled v)) ->
            forall v, chain c !! S k <> Some (Fulfilled v)).
  { intros k Hn v Hk. apply (Hn v).
    destruct (decide (S k = i)) as [Heq|Hne].
    - rewrite Heq, Hi in Hk. injection Hk as ->. by destruct Hold.
    - by rewrite list_lookup_insert_ne. }
  split; rewrite ?Hch, ?Hcache.
  - intros k l Hk. apply (V1 k). by apply Hsame.
  - intros i0 j0 li lj Hij Hi0 Hj0. apply (V2 i0 j0); auto.
  - intros k l Hk Hn. apply (V3 k); [by apply Hsame|by apply Hnext].
  - intros Hn. apply V4. intros k. by apply Hnext.
  - intros k Hk. apply V5. by apply Hsame.
Qed.

Lemma values_ok_step c ev :
  cache_inv c -> values_ok c -> values_ok (step c ev).
Proof.
  intros [Hc He] Hv. destruct ev as [|k now1 now2|k d|k e]; simpl.
  - destruct Hv as [V1 V2 V3 V4 V5]. split; simpl.
    + intros k l Hk. apply lookup_snoc_Some in Hk as [[_ Hk]|[_ Hk]];
        [eauto|discriminate].
    + intros i j li lj Hij Hi Hj.
      apply lookup_snoc_Some in Hi as [[_ Hi]|[_ Hi]]; [|discriminate].
      apply lookup_snoc_Some in Hj as [[_ Hj]|[_ Hj]]; [|discriminate].
      by apply (V2 i j).
    + intros k l Hk Hn. apply lookup_snoc_Some in Hk as [[_ Hk]|[_ Hk]];
        [|discriminate].
      apply (V3 k l Hk). intros v Hv. apply (Hn v). by apply lookup_app_l_Some.
    + intros Hn. apply V4. intros k v Hv. apply (Hn k v).
      by apply lookup_app_l_Some.
    + intros k Hk. apply lookup_snoc_Some in Hk as [[_ Hk]|[_ Hk]];
        [eauto|discriminate].
  - unfold run_job. destruct k as [|j]; [done|].
    destruct (chain c !! S j) as [[| | |]|] eqn:Hk; try done.
    destruct (chain c !! j) as [[| |v|e]|] eqn:Hj; try done.
    + unfold fetchNow. destruct (decide _); simpl.
      * apply (values_ok_insert c _ (S j) Queued (cache c)); try done.
        -- by intros [].
        -- lia.
        -- by exists (Fulfilled v).
      * apply (values_ok_unfulfilled c _ (S j) Queued InFlight);
          try done; by intros [].
    + apply (values_ok_unfulfilled c _ (S j) Queued (Rejected e));
        try done; by intros [].
  - destruct (chain c !! k) as [[| | |]|] eqn:Hk; try done.
    destruct k as [|j]; [destruct Hc as [Hh _ _]; congruence|].
    apply (values_ok_insert c _ (S j) InFlight (cache c ++ d)); try done.
    + by intros [].
    + lia.
    + by apply prefix_app_r.
    + apply (running_pred_fulfilled _ j InFlight Hc Hk). by left.
  - destruct (chain c !! k) as [[| | |]|] eqn:Hk; try done.
    apply (values_ok_unfulfilled c _ k InFlight (Rejected e));
      try done; by intros [].
Qed.

Lemma reachable_values c : reachable c -> values_ok c.
Proof.
  intros (days & g & evs & ->). unfold run.
  induction evs as [|ev evs IH] using rev_ind; [apply values_ok_new|].
  rewrite foldl_app. simpl. apply values_ok_step; [|done].
  apply (cache_inv_run evs), cache_inv_new.
Qed.

(** X2. What fetches resolve with: every list a fetch resolved with is a
    prefix of the cache, a later call never resolves with less than an
    earlier one, the call resolved last resolved with the whole cache, and
    as long as no call has resolved the cache is empty. *)
Theorem resolved_values_grow c :
  reachable c ->
  (forall k l, chain c !! k = Some (Fulfilled (VCache l)) ->
     l `prefix_of` cache c) /\
  (forall i j li lj, (i <= j)%nat ->
     chain c !! i = Some (Fulfilled (VCache li)) ->
     chain c !! j = Some (Fulfilled (VCache lj)) -> li `prefix_of` lj) /\
  (forall k l, chain c !! k = Some (Fulfilled (VCache l)) ->
     (forall v, chain c !! S k <> Some (Fulfilled v)) -> l = cache c) /\
  ((forall k v, chain c !! S k <> Some (Fulfilled v)) -> cache c = []).
Proof.
  intros Hr. by pose proof (reachable_values c Hr) as [V1 V2 V3 V4 V5].
Qed.

(** Serving one queued promise behind a fulfilled one: its reaction
    executes [fetchNow] and, after the getter's answer if one was asked
    for, the promise is fulfilled. *)
Lemma serve_one c j v t1 t2 d :
  chain c !! S j = Some Queued -> chain c !! j = Some (Fulfilled v) ->
  let c1 := step (step c (RunJob (S j) t1 t2)) (GetterFulfil (S j) d) in
  exists l x, chain c1 = <[S j := Fulfilled (VCache l)]> (chain c) /\
    execs c1 = execs c ++ [x] /\ ex_call x = S j /\
    cache c `prefix_of` cache c1.
Proof.
  intros Hk Hj. assert (Hlt : (S j < length (chain c))%nat)
    by (by eapply lookup_lt_Some).
  simpl. unfold run_job. rewrite Hk, Hj. unfold fetchNow.
  destruct (decide _); simpl.
  - rewrite list_lookup_insert_eq by done. by eexists _, _.
  - rewrite list_lookup_insert_eq by done. simpl.
    rewrite list_insert_insert_eq. eexists _, _. split_and!; try done.
    by apply prefix_app_r.
Qed.

(** X3. Queued calls are served: in a cache whose promises up to [a - 1]
    are fulfilled and whose [n] later promises are queued, letting the
    reaction of each queued promise run and its getter succeed, one after
    the other, fulfils all of them; [fetchNow] executes once for each, in
    the order of the calls, and the cache only grows. *)
Theorem queued_fetches_are_served now1 now2 answer n : forall c a,
  reachable c -> (1 <= a)%nat ->
  (forall j, (j < a)%nat -> exists v, chain c !! j = Some (Fulfilled v)) ->
  (forall j, (a <= j < a + n)%nat -> chain c !! j = Some Queued) ->
  (a + n)%nat = length (chain c) ->
  let c' := run c (serve now1 now2 answer a n) in
  length (chain c') = length (chain c) /\
  (forall j, (j < a + n)%nat -> exists v, chain c' !! j = Some (Fulfilled v)) /\
  ex_call <$> execs c' = (ex_call <$> execs c) ++ seq a n /\
  cache c `prefix_of` cache c'.
Proof.
  induction n as [|n IH]; intros c a Hr Ha Hful Hq Hlen c'.
  - subst c'. simpl. rewrite app_nil_r. split_and!; try done.
    intros j Hj. apply Hful. lia.
  - destruct a as [|j]; [lia|].
    destruct (Hful j) as [v Hj]; [lia|].
    assert (Hk : chain c !! S j = Some Queued) by (apply Hq; lia).
    destruct (serve_one c j v (now1 (S j)) (now2 (S j)) (answer (S j)) Hk Hj)
      as (l & x & Hch & Hex & Hcall & Hpre).
    set (c1 := step (step c (RunJob (S j) (now1 (S j)) (now2 (S j))))
                 (GetterFulfil (S j) (answer (S j)))) in *.
    assert (Hlt : (S j < length (chain c))%nat) by (by eapply lookup_lt_Some).
    destruct (IH c1 (S (S j))) as (I1 & I2 & I3 & I4).
    + by do 2 apply reachable_step.
    + lia.
    + intros i Hi. rewrite Hch. destruct (decide (i = S j)) as [->|Hne].
      * rewrite list_lookup_insert_eq by done. by eexists.
      * rewrite list_lookup_insert_ne by done. apply Hful. lia.
    + intros i Hi. rewrite Hch, list_lookup_insert_ne by lia. apply Hq. lia.
    + rewrite Hch, length_insert. lia.
    + assert (Heq : c' = run c1 (serve now1 now2 answer (S (S j)) n))
        by reflexivity.
      rewrite Heq. split_and!.
      * rewrite I1, Hch. by rewrite length_insert.
      * intros i Hi. apply I2. lia.
      * rewrite I3, Hex, fmap_app. simpl. rewrite Hcall, <- app_assoc. done.
      * by etrans.
Qed.

(** ** Further properties of the facade *)

Lemma with_series_same s c g : series_cache s (with_series s c g) = c.
Proof. by destruct s. Qed.

(** What a step of the facade does to the getter of a series. *)
Lemma gstep_getter g ev s :
  getter (series_cache s (gstep g ev)) =
    match ev, stat_of s with
    | ResetLogs l _, None => LogsGetter l
    | ResetStats _, Some stat => HistoryGetter stat
    | _, _ => getter (series_cache s g)
    end.
Proof.
  assert (Hw : forall s' cev,
    getter (series_cache s (with_series s' (step (series_cache s' g) cev) g))
      = getter (series_cache s g)).
  { intros s' cev. destruct (decide (s' = s)) as [->|Hne].
    - by rewrite with_series_same, step_getter.
    - by rewrite with_series_other. }
  destruct ev as [s'|s' k n1 n2|s' k r|l d|d]; unfold gstep; rewrite ?Hw.
  - by destruct (stat_of s).
  - by destruct (stat_of s).
  - by destruct (stat_of s).
  - by destruct s.
  - by destruct s.
Qed.

Lemma gstep_api g ev : api (gstep g ev) = api g.
Proof. by destruct ev. Qed.

(** X4. The caches of a facade stay bound to their series: whatever
    happens after [new Greenhouse(options)], resets included, the base URL
    is the one given (or the default), each stat cache queries the history
    of its own stat, and the logs cache queries the logs at the level given
    last; so every request of a cache goes to the path of its series. *)
Theorem facade_getters_bound o evs :
  let g := grun (new_Greenhouse o) evs in
  let level :=
    log_level_after (default DEFAULT_LOG_LEVEL (opt_logLevel o)) evs in
  api g = mkApi (default DEFAULT_BASE_URL (opt_baseUrl o)) /\
  getter (_logs g) = LogsGetter level /\
  (forall s stat, stat_of s = Some stat ->
     getter (series_cache s g) = HistoryGetter stat) /\
  (forall s stat x, stat_of s = Some stat ->
     url (request_of g s x) =
       baseUrl (api g) +:+ "/" +:+ stat +:+ "/history/"
         +:+ format (ex_start x) +:+ "/" +:+ format (At (ex_end x))) /\
  (forall x,
     url (request_of g SLogs x) =
       baseUrl (api g) +:+ "/logs/" +:+ level +:+ "/"
         +:+ format (ex_start x) +:+ "/" +:+ format (At (ex_end x))).
Proof.
  intros g level.
  assert (H : api g = mkApi (default DEFAULT_BASE_URL (opt_baseUrl o)) /\
              getter (_logs g) = LogsGetter level /\
              (forall s stat, stat_of s = Some stat ->
                 getter (series_cache s g) = HistoryGetter stat)).
  { subst g level. unfold grun, log_level_after.
    induction evs as [|ev evs IH] using rev_ind.
    - simpl. split_and!; try done. intros s stat Hs.
      destruct s; simpl in *; try discriminate; by injection Hs as <-.
    - rewrite !foldl_app. simpl. destruct IH as (I1 & I2 & I3).
      split_and!.
      + by rewrite gstep_api.
      + change (_logs ?g) with (series_cache SLogs g).
        rewrite gstep_getter. simpl. by destruct ev.
      + intros s stat Hs. rewrite gstep_getter, Hs.
        destruct ev; auto. }
  destruct H as (H1 & H2 & H3). split_and!; try done.
  - intros s stat x Hs. unfold request_of. by rewrite (H3 s stat Hs).
  - intros x. unfold request_of. simpl. by rewrite H2.
Qed.

Lemma series_cache_reachable o evs s :
  reachable (series_cache s (grun (new_Greenhouse o) evs)).
Proof.
  assert (Hnew : forall days g, reachable (new_cache days g)).
  { intros days g. by exists days, g, []. }
  revert s. unfold grun. induction evs as [|ev evs IH] using rev_ind; intros s.
  - destruct s; apply Hnew.
  - rewrite foldl_app. simpl.
    set (g := foldl gstep (new_Greenhouse o) evs) in *.
    assert (Hw : forall s' cev,
      reachable (series_cache s (with_series s' (step (series_cache s' g) cev) g))).
    { intros s' cev. destruct (decide (s' = s)) as [->|Hne].
      - rewrite with_series_same. apply reachable_step, IH.
      - rewrite with_series_other by done. apply IH. }
    destruct ev as [s'|s' k n1 n2|s' k r|l d|d].
    + apply (Hw s' CallFetch).
    + apply (Hw s' (RunJob k n1 n2)).
    + apply (Hw s' (getter_event k r)).
    + destruct s; simpl; first [apply Hnew | apply (IH STemperature)
        | apply (IH SHumidity) | apply (IH SFan) | apply (IH SWater)].
    + destruct s; simpl; first [apply Hnew | apply (IH SLogs)].
Qed.

(** X5. The facade drives its caches only through [fetch()], reaction
    jobs and getter outcomes, and a reset installs new caches: each of the
    five caches of a facade made by [new Greenhouse(options)] is, after any
    sequence of events, in a state that a cache reaches from its
    constructor, so it has the chain and the executions of such a state:
    what holds of a reachable cache holds of each of them. *)
Theorem facade_caches_reachable o evs s :
  let c := series_cache s (grun (new_Greenhouse o) evs) in
  reachable c /\ cache_inv c /\ values_ok c.
Proof.
  intros c. pose proof (series_cache_reachable o evs s) as Hr.
  split_and!; [done|by apply reachable_inv|by apply reachable_values].
Qed.

(** X6. A reset brings a series back whatever state its cache was in, a
    rejected chain included: after [resetStatHistory(N)] the first call of
    a stat accessor executes [fetchNow] at once, for the window from what
    [moment]'s subtraction of days makes of now and [N] up to now, and,
    unless both ends render alike, its request goes to the history path of
    that stat. *)
Theorem reset_then_fetch g N s stat now1 now2 :
  stat_of s = Some stat ->
  let g' := grun (resetStatHistory N g) [Call s; Job s 1 now1 now2] in
  let x := mkExec 1 (subtract_days N now1) now2
             (bool_decide
                (format (subtract_days N now1) <> format (At now2))) in
  execs (series_cache s g') = [x] /\
  lastEndTime (series_cache s g') = Some now2 /\
  cache (series_cache s g') = [] /\
  (format (subtract_days N now1) <> format (At now2) ->
   chain (series_cache s g') = [Fulfilled VNull; InFlight] /\
   url (request_of g' s x) =
     baseUrl (api g) +:+ "/" +:+ stat +:+ "/history/"
       +:+ format (subtract_days N now1) +:+ "/" +:+ format (At now2)).
Proof.
  intros Hs g' x. subst g' x.
  destruct s; simpl in Hs; try discriminate; injection Hs as <-;
    simpl; unfold fetchNow, fetch_start; simpl;
    (destruct (decide _) as [Heq|Hne]; simpl;
     [rewrite bool_decide_eq_false_2 by tauto; split_and!; try done;
      by intros []
     |rewrite bool_decide_eq_true_2 by done; by split_and!]).
Qed.

(** ** Further properties of the API client *)

(** X7. The reversal turns newest-first into oldest-first: when the
    parsed [when] of the items of a response never increases along the
    array, the list that [logs] and [history] resolve with has a [when]
    that never decreases, and it holds the same items, each once. *)
Theorem read_items_chronological items :
  (forall i j a b, (i < j)%nat -> items !! i = Some a -> items !! j = Some b ->
     parse (when b) <= parse (when a)) ->
  exists out, then_read_items (HttpOk (WithItems items)) = Resolves out /\
    (forall i j a b, (i < j)%nat -> out !! i = Some a -> out !! j = Some b ->
       when a <= when b) /\
    out ≡ₚ (fun item => mkItem (parse (when item)) (rest item)) <$> items.
Proof.
  intros Hdesc. eexists. split; [done|]. split; [|apply reverse_Permutation].
  intros i j a b Hij Hi Hj.
  apply reverse_lookup_Some in Hi as [Hi Hi'].
  apply reverse_lookup_Some in Hj as [Hj Hj'].
  rewrite length_fmap in *.
  apply list_lookup_fmap_Some in Hi as (a0 & -> & Hi).
  apply list_lookup_fmap_Some in Hj as (b0 & -> & Hj).
  simpl. apply (Hdesc (length items - S j)%nat (length items - S i)%nat);
    [lia|done|done].
Qed.

(** ** Properties of the chart component *)

Lemma length_last_100 {A : Type} (items : list A) :
  (length (last_100 items) <= 100)%nat.
Proof.
  unfold last_100. destruct (decide _); [rewrite length_drop|]; lia.
Qed.

(** X8. The chart keeps the newest hundred: [last_100] returns the last
    [min(n, 100)] of [n] items, in their order; it is the whole list when
    there are at most 100, and the last item is always kept. *)
Theorem last_100_window {A : Type} (items : list A) :
  length (last_100 items) = (length items `min` 100)%nat /\
  last_100 items `suffix_of` items /\
  ((length items <= 100)%nat -> last_100 items = items) /\
  last (last_100 items) = last items.
Proof.
  unfold last_100. destruct (decide _) as [Hgt|Hle].
  - split_and!.
    + rewrite length_drop. lia.
    + apply suffix_drop.
    + lia.
    + rewrite !last_lookup, lookup_drop, length_drop. f_equal. lia.
  - split_and!; try done. lia.
Qed.

Lemma endUpdates_rest c :
  greenhouse (endUpdates c) = greenhouse c /\ data (endUpdates c) = data c /\
  delivered (endUpdates c) = delivered c /\
  next_interval (endUpdates c) = next_interval c.
Proof. unfold endUpdates. by destruct (updateTimer c). Qed.

Lemma timer_ok_endUpdates next c :
  timer_ok next c -> timer_ok next (endUpdates c) /\
  intervals (endUpdates c) = [] /\ updateTimer (endUpdates c) = None.
Proof.
  intros (Hi & Hn & Hid). unfold endUpdates, timer_ok.
  destruct (updateTimer c) as [id|] eqn:Ht; simpl in *.
  - rewrite Hi. rewrite filter_cons_False by (intros H; by apply H).
    by rewrite filter_nil.
  - rewrite Ht. by rewrite Hi.
Qed.

Lemma timer_ok_step next c ev : timer_ok next c -> timer_ok next (cstep c ev).
Proof.
  intros Hok. destruct ev as [| |id|k n1 n2|k r|]; simpl; try done.
  - destruct (timer_ok_endUpdates next c Hok) as ((_ & Hn & _) & He & _).
    unfold startUpdates, timer_ok. simpl. rewrite He. split_and!; try done.
    + lia.
    + intros id [= <-]. lia.
  - by apply timer_ok_endUpdates.
  - by destruct (decide _).
  - unfold deliver.
    by destruct (chain (_temperature (greenhouse c)) !! S (delivered c))
      as [[| |[|l]|e]|].
Qed.

(** X9. The component never leaks an interval: after any sequence of
    mounts, destructions, ticks and other events, the intervals it has set
    and not cleared are exactly the one in [updateTimer], or none when
    [updateTimer] is null; [endUpdates] leaves none, and [startUpdates]
    leaves exactly one, a new one. *)
Theorem timer_never_leaks g next evs :
  let c := crun (new_component g next) evs in
  intervals c = option_list (updateTimer c) /\
  intervals (endUpdates c) = [] /\
  updateTimer (endUpdates c) = None /\
  intervals (startUpdates c) = [next_interval c] /\
  updateTimer (startUpdates c) = Some (next_interval c) /\
  next_interval c ∉ intervals c.
Proof.
  intros c. assert (Hok : timer_ok next c).
  { subst c. unfold crun. induction evs as [|ev evs IH] using rev_ind.
    - by split_and!.
    - rewrite foldl_app. simpl. by apply timer_ok_step. }
  destruct (timer_ok_endUpdates next c Hok) as (_ & He & Hn).
  destruct (endUpdates_rest c) as (_ & _ & _ & Hnext).
  destruct Hok as (Hi & _ & Hid).
  split_and!; try done.
  - unfold startUpdates. simpl. by rewrite He, Hnext.
  - unfold startUpdates. simpl. by rewrite Hnext.
  - rewrite Hi. destruct (updateTimer c) as [id|] eqn:Ht; simpl.
    + intros Hin%list_elem_of_singleton. specialize (Hid id eq_refl). lia.
    + apply not_elem_of_nil.
Qed.

Lemma grun_untouched evs : forall g s,
  Forall (fun ev => touches ev s = false) evs ->
  series_cache s (grun g evs) = series_cache s g.
Proof.
  induction evs as [|ev evs IH]; intros g s Hall; [done|].
  apply Forall_cons in Hall as [Hev Hall]. simpl.
  etrans; [by apply IH|]. by apply gstep_untouched.
Qed.

Lemma component_ok_new o next :
  component_ok (new_Greenhouse o) (new_component (new_Greenhouse o) next).
Proof.
  split_and!; simpl; try done.
  - by exists [].
  - by exists (Fulfilled VNull).
  - lia.
Qed.

(** The facade of the component moves by an event of the temperature
    series; [data] and the callbacks stay. *)
Lemma component_ok_gstep g0 c c' cev gev :
  component_ok g0 c -> greenhouse c' = gstep (greenhouse c) gev ->
  _temperature (gstep (greenhouse c) gev)
    = step (_temperature (greenhouse c)) cev ->
  (forall s, s <> STemperature -> touches gev s = false) ->
  data c' = data c -> delivered c' = delivered c ->
  component_ok g0 c'.
Proof.
  intros ((gevs & Hg & Hall) & (p & Hp & Hset) & Hdata & Hlen)
    Hg' Ht Htouch Hd Hdel.
  assert (Hstable : chain (_temperature (greenhouse c')) !! delivered c'
                    = Some p).
  { rewrite Hg', Ht, Hdel. by apply settled_stable. }
  split_and!.
  - exists (gevs ++ [gev]). split.
    + rewrite Hg', Hg. unfold grun. by rewrite foldl_app.
    + apply Forall_app. split; [done|]. by apply Forall_singleton.
  - by exists p.
  - intros l Hl. rewrite Hd. apply Hdata. congruence.
  - by rewrite Hd.
Qed.

Lemma component_ok_step g0 c ev : component_ok g0 c -> component_ok g0 (cstep c ev).
Proof.
  intros Hok.
  assert (Htemp : forall gev, (exists k n1 n2, gev = Job STemperature k n1 n2)
            \/ (exists k r, gev = Settle STemperature k r)
            \/ gev = Call STemperature ->
            forall s, s <> STemperature -> touches gev s = false).
  { intros gev [(k & n1 & n2 & ->)|[(k & r & ->)| ->]] s Hs; simpl;
      by apply bool_decide_eq_false_2. }
  assert (Hupd : forall c0, component_ok g0 c0 -> component_ok g0 (updateData c0)).
  { intros c0 H0. apply (component_ok_gstep g0 c0 _ CallFetch (Call STemperature));
      try done. apply Htemp. by right; right. }
  assert (Hend : component_ok g0 (endUpdates c)).
  { unfold endUpdates. by destruct (updateTimer c). }
  destruct ev as [| |id|k n1 n2|k r|]; simpl.
  - pose proof (Hupd _ Hend) as Hu. unfold startUpdates. exact Hu.
  - exact Hend.
  - destruct (decide _); [by apply Hupd|done].
  - apply (component_ok_gstep g0 c _ (RunJob k n1 n2) (Job STemperature k n1 n2));
      try done. apply Htemp. left. by eexists _, _, _.
  - apply (component_ok_gstep g0 c _ (getter_event k r) (Settle STemperature k r));
      try done. apply Htemp. right; left. by eexists _, _.
  - destruct Hok as (Hg & Hp & Hdata & Hlen). unfold deliver.
    destruct (chain (_temperature (greenhouse c)) !! S (delivered c))
      as [[| |[|l]|e]|] eqn:Hk; try by split_and!.
    + split_and!; simpl; try done. by eexists.
      intros l. rewrite Hk. discriminate.
    + split_and!; simpl; try done.
      * by eexists.
      * intros l'. rewrite Hk. by intros [= <-].
      * apply length_last_100.
    + split_and!; simpl; try done. by eexists.
      intros l. rewrite Hk. discriminate.
Qed.

(** X10. What the chart holds: [data] never has more than 100 items;
    once the callbacks of a fulfilled call of [temperature()] have run it
    is the last 100 of the list that call resolved with, and when that call
    is the last one issued it is the last 100 records of the temperature
    cache. The component fetches no other series: the logs, humidity, fan
    and water caches stay as constructed. *)
Theorem component_shows_last_100 o next evs :
  let c := crun (new_component (new_Greenhouse o) next) evs in
  let t := _temperature (greenhouse c) in
  (length (data c) <= 100)%nat /\
  (forall l, chain t !! delivered c = Some (Fulfilled (VCache l)) ->
     data c = last_100 l) /\
  (forall l, chain t !! delivered c = Some (Fulfilled (VCache l)) ->
     S (delivered c) = length (chain t) -> data c = last_100 (cache t)) /\
  (forall s, s <> STemperature ->
     series_cache s (greenhouse c) = series_cache s (new_Greenhouse o)).
Proof.
  intros c t.
  assert (Hok : component_ok (new_Greenhouse o) c).
  { subst c. unfold crun. induction evs as [|ev evs IH] using rev_ind.
    - apply component_ok_new.
    - rewrite foldl_app. simpl. by apply component_ok_step. }
  destruct Hok as ((gevs & Hg & Hall) & _ & Hdata & Hlen).
  split_and!; try done.
  - intros l Hl Hlast. rewrite (Hdata l Hl). f_equal.
    assert (Hr : reachable t).
    { subst t. rewrite Hg. apply (series_cache_reachable o gevs STemperature). }
    apply (val_latest _ (reachable_values t Hr) (delivered c) l Hl).
    intros v Hv. apply lookup_lt_Some in Hv. lia.
  - intros s Hs. rewrite Hg. apply grun_untouched.
    eapply Forall_impl; [exact Hall|]. intros ev Hev. by apply Hev.
Qed.

End Moment.

(** ** The model on concrete inputs *)


(** Two instants ten minutes apart, a temperature cache with a window of
    one day, and runs of it under the seconds rendering. *)
Local Abbreviation T0 := 1600000000000.
Local Abbreviation T1 := 1600000600000.
Local Abbreviation temp_cache := (new_cache 1 (HistoryGetter StatType.Temperature)).
Local Abbreviation timeout := (TransportError "timeout").
Local Abbreviation in_flight :=
  (run seconds_format fixed_zone_subtract temp_cache [CallFetch; RunJob 1 T0 T0]).
Local Abbreviation failed :=
  (run seconds_format fixed_zone_subtract temp_cache
     [CallFetch; RunJob 1 T0 T0; GetterReject 1 timeout]).

(** C2 as stated fails: after the getter of the first fetch has rejected,
    the promise of the next [fetch()] call is rejected with the same error
    and [fetchNow] does not execute for it, so no start is computed from
    the end of the failed fetch and no getter is invoked. *)
Lemma next_fetch_after_failure_counterexample :
  chain failed !! 1%nat = Some (Rejected timeout) /\
  cache failed = [] /\
  lastEndTime failed = Some T0 /\
  chain (run seconds_format fixed_zone_subtract failed [CallFetch; RunJob 2 T1 T1]) !! 2%nat
    = Some (Rejected timeout) /\
  ~ (exists x, x ∈ execs (run seconds_format fixed_zone_subtract failed [CallFetch; RunJob 2 T1 T1])
               /\ ex_call x = 2%nat /\ ex_start x = At T0).
Proof.
  split_and!; try by vm_compute.
  intros (x & Hx & Hcall & _).
  assert (He : execs (run seconds_format fixed_zone_subtract failed [CallFetch; RunJob 2 T1 T1])
               = [mkExec 1 (At (T0 - msPerDay)) T0 true]) by by vm_compute.
  rewrite He in Hx. apply list_elem_of_singleton in Hx. subst x. discriminate.
Qed.


(** C6 as stated fails: [lastEndTime] is whatever the clock reads, so when
    the clock is set back between two fetches, from [T1] to [T0], the
    boundary after the second fetch is below the boundary before it. *)
Lemma boundary_moves_back_counterexample :
  lastEndTime (run seconds_format fixed_zone_subtract temp_cache
                 [CallFetch; RunJob 1 T1 T1; GetterFulfil 1 []]) = Some T1 /\
  lastEndTime (run seconds_format fixed_zone_subtract
                 (run seconds_format fixed_zone_subtract temp_cache
                    [CallFetch; RunJob 1 T1 T1; GetterFulfil 1 []])
                 [CallFetch; RunJob 2 T0 T0]) = Some T0 /\
  ~ boundary_le
      (lastEndTime (run seconds_format fixed_zone_subtract temp_cache
                      [CallFetch; RunJob 1 T1 T1; GetterFulfil 1 []]))
      (lastEndTime (run seconds_format fixed_zone_subtract
                      (run seconds_format fixed_zone_subtract temp_cache
                         [CallFetch; RunJob 1 T1 T1; GetterFulfil 1 []])
                      [CallFetch; RunJob 2 T0 T0])).
Proof. split_and!; by vm_compute. Qed.


(** A first fetch whose getter rejects: the cache stays empty, the boundary
    is the attempted end, and [fetchNow] would start from it. *)
Lemma getter_rejection_keeps_cache_witness :
  reachable seconds_format fixed_zone_subtract in_flight /\
  chain in_flight !! 1%nat = Some InFlight /\
  chain failed !! 1%nat = Some (Rejected timeout) /\
  cache failed = cache in_flight /\
  lastEndTime failed = Some T0 /\
  fetch_start fixed_zone_subtract failed T1 = At T0.
Proof.
  assert (Hr : reachable seconds_format fixed_zone_subtract in_flight).
  { exists 1%Q, (HistoryGetter StatType.Temperature),
      [CallFetch; RunJob 1 T0 T0]. reflexivity. }
  assert (Hk : chain in_flight !! 1%nat = Some InFlight) by reflexivity.
  destruct (getter_rejection_keeps_cache seconds_format fixed_zone_subtract in_flight 1 timeout
              Hr Hk) as (H1 & H2 & x & Hx & _ & _ & H3 & H4).
  split; [exact Hr|]. split; [exact Hk|]. split; [exact H1|].
  split; [exact H2|]. split; [reflexivity|].
  destruct (H4 T1 T1) as [H5 _].
  vm_compute in Hx. injection Hx as <-. exact H5.
Defined.

(** After that failure two more calls of [fetch()] are rejected alike, and
    nothing else moves. *)
Lemma rejected_chain_stays_rejected_witness :
  reachable seconds_format fixed_zone_subtract failed /\
  chain failed !! 1%nat = Some (Rejected timeout) /\
  execs (run seconds_format fixed_zone_subtract failed [CallFetch; RunJob 2 T1 T1; CallFetch])
    = execs failed /\
  cache (run seconds_format fixed_zone_subtract failed [CallFetch; RunJob 2 T1 T1; CallFetch])
    = cache failed /\
  lastEndTime (run seconds_format fixed_zone_subtract failed [CallFetch; RunJob 2 T1 T1; CallFetch])
    = lastEndTime failed.
Proof.
  assert (Hr : reachable seconds_format fixed_zone_subtract failed).
  { exists 1%Q, (HistoryGetter StatType.Temperature),
      [CallFetch; RunJob 1 T0 T0; GetterReject 1 timeout]. reflexivity. }
  assert (Hk : chain failed !! 1%nat = Some (Rejected timeout)) by reflexivity.
  destruct (rejected_chain_stays_rejected seconds_format fixed_zone_subtract failed 1 timeout
              [CallFetch; RunJob 2 T1 T1; CallFetch] Hr Hk)
    as (H1 & H2 & H3 & _).
  split; [exact Hr|]. split; [exact Hk|]. split; [exact H3|].
  split; [exact H1|exact H2].
Defined.


(** Two fetches ten minutes apart: the boundary goes from [T0] to [T1]. *)
Lemma lastEndTime_monotone_witness :
  clock_monotone
    (readings_of ([CallFetch; RunJob 1 T0 T0] ++
                  [GetterFulfil 1 [mkItem (T0 - 7200000) [("value", "20")]];
                   CallFetch; RunJob 2 T0 T1])) /\
  boundary_le (lastEndTime in_flight)
    (lastEndTime
       (run seconds_format fixed_zone_subtract in_flight
          [GetterFulfil 1 [mkItem (T0 - 7200000) [("value", "20")]];
           CallFetch; RunJob 2 T0 T1])).
Proof.
  assert (Hm : clock_monotone
    (readings_of ([CallFetch; RunJob 1 T0 T0] ++
                  [GetterFulfil 1 [mkItem (T0 - 7200000) [("value", "20")]];
                   CallFetch; RunJob 2 T0 T1]))).
  { simpl. lia. }
  split; [exact Hm|].
  exact (proj1 (lastEndTime_monotone seconds_format fixed_zone_subtract 1%Q
                  (HistoryGetter StatType.Temperature) _ _ Hm)).
Defined.


(** The facade end to end: [temperature()] called twice back to back on a
    facade with [statDays = 1]. The second call waits for the first; the
    first asks for the day before [T0] and its response, newest first, is
    appended oldest first; the second asks for [(T0, T1)]; the logs cache is
    not touched. *)
Example two_fetches_back_to_back :
  let g := grun seconds_format seconds_parse fixed_zone_subtract
             (new_Greenhouse (mkOptions None (Some 1%Q) None None))
             [Call STemperature; Call STemperature;
              Job STemperature 1 T0 T0; Job STemperature 2 T0 T0;
              Settle STemperature 1
                (HttpOk (WithItems [mkItem "1599999000" [("value", "21")];
                                    mkItem "1599992800" [("value", "20")]]));
              Job STemperature 2 T1 T1;
              Settle STemperature 2
                (HttpOk (WithItems [mkItem "1600000300" [("value", "22")]]))] in
  execs (_temperature g)
    = [mkExec 1 (At (T0 - msPerDay)) T0 true; mkExec 2 (At T0) T1 true] /\
  url (request_of seconds_format seconds_parse g STemperature
         (mkExec 1 (At (T0 - msPerDay)) T0 true))
    = "http://localhost:8096/temperature/history/1599913600/1600000000" /\
  cache (_temperature g)
    = [mkItem 1599992800000 [("value", "20")];
       mkItem 1599999000000 [("value", "21")];
       mkItem 1600000300000 [("value", "22")]] /\
  lastEndTime (_temperature g) = Some T1 /\
  _logs g = new_cache 7 (LogsGetter LogLevel.Info).
Proof. by vm_compute. Qed.

(** ** The further properties on concrete inputs *)

(** A second call queued behind a query in flight: its reaction does
    nothing yet. *)
Lemma single_flight_witness :
  reachable seconds_format fixed_zone_subtract
    (run seconds_format fixed_zone_subtract temp_cache [CallFetch; CallFetch; RunJob 1 T0 T0]) /\
  chain (run seconds_format fixed_zone_subtract temp_cache [CallFetch; CallFetch; RunJob 1 T0 T0])
    !! 1%nat = Some InFlight /\
  step seconds_format fixed_zone_subtract
    (run seconds_format fixed_zone_subtract temp_cache [CallFetch; CallFetch; RunJob 1 T0 T0])
    (RunJob 2 T1 T1)
  = run seconds_format fixed_zone_subtract temp_cache [CallFetch; CallFetch; RunJob 1 T0 T0].
Proof.
  assert (Hr : reachable seconds_format fixed_zone_subtract
    (run seconds_format fixed_zone_subtract temp_cache [CallFetch; CallFetch; RunJob 1 T0 T0])).
  { exists 1%Q, (HistoryGetter StatType.Temperature),
      [CallFetch; CallFetch; RunJob 1 T0 T0]. reflexivity. }
  split; [exact Hr|]. split; [reflexivity|].
  exact (proj1 (proj2 (single_flight seconds_format fixed_zone_subtract _ 1 Hr eq_refl)) 2%nat T1 T1).
Defined.

(** Two fetches with one record each: what the first resolved with is a
    prefix of the cache. *)
Lemma resolved_values_grow_witness :
  reachable seconds_format fixed_zone_subtract
    (run seconds_format fixed_zone_subtract temp_cache
       [CallFetch; RunJob 1 T0 T0;
        GetterFulfil 1 [mkItem (T0 - 7200000) [("value", "20")]];
        CallFetch; RunJob 2 T1 T1;
        GetterFulfil 2 [mkItem (T0 + 300000) [("value", "21")]]]) /\
  [mkItem (T0 - 7200000) [("value", "20")]] `prefix_of`
    cache (run seconds_format fixed_zone_subtract temp_cache
       [CallFetch; RunJob 1 T0 T0;
        GetterFulfil 1 [mkItem (T0 - 7200000) [("value", "20")]];
        CallFetch; RunJob 2 T1 T1;
        GetterFulfil 2 [mkItem (T0 + 300000) [("value", "21")]]]).
Proof.
  assert (Hr : reachable seconds_format fixed_zone_subtract
    (run seconds_format fixed_zone_subtract temp_cache
       [CallFetch; RunJob 1 T0 T0;
        GetterFulfil 1 [mkItem (T0 - 7200000) [("value", "20")]];
        CallFetch; RunJob 2 T1 T1;
        GetterFulfil 2 [mkItem (T0 + 300000) [("value", "21")]]])).
  { exists 1%Q, (HistoryGetter StatType.Temperature). eexists. reflexivity. }
  split; [exact Hr|].
  exact (proj1 (resolved_values_grow seconds_format fixed_zone_subtract _ Hr) 1%nat _ eq_refl).
Defined.

(** Two calls issued back to back are both served, in order. *)
Lemma queued_fetches_are_served_witness :
  reachable seconds_format fixed_zone_subtract
    (run seconds_format fixed_zone_subtract temp_cache [CallFetch; CallFetch]) /\
  (1 <= 1)%nat /\
  (forall j, (j < 1)%nat -> exists v,
     chain (run seconds_format fixed_zone_subtract temp_cache [CallFetch; CallFetch]) !! j
       = Some (Fulfilled v)) /\
  (forall j, (1 <= j < 1 + 2)%nat ->
     chain (run seconds_format fixed_zone_subtract temp_cache [CallFetch; CallFetch]) !! j
       = Some Queued) /\
  (1 + 2)%nat
    = length (chain (run seconds_format fixed_zone_subtract temp_cache [CallFetch; CallFetch])) /\
  ex_call <$>
    execs (run seconds_format fixed_zone_subtract
             (run seconds_format fixed_zone_subtract temp_cache [CallFetch; CallFetch])
             (serve (fun k => T0 + Z.of_nat k * 600000)
                    (fun k => T0 + Z.of_nat k * 600000)
                    (fun k => [mkItem (T0 + Z.of_nat k) []]) 1 2))
    = [1%nat; 2%nat].
Proof.
  assert (Hr : reachable seconds_format fixed_zone_subtract
    (run seconds_format fixed_zone_subtract temp_cache [CallFetch; CallFetch])).
  { exists 1%Q, (HistoryGetter StatType.Temperature), [CallFetch; CallFetch].
    reflexivity. }
  assert (Hf : forall j, (j < 1)%nat -> exists v,
     chain (run seconds_format fixed_zone_subtract temp_cache [CallFetch; CallFetch]) !! j
       = Some (Fulfilled v)).
  { intros [|j] Hj; [by exists VNull|lia]. }
  assert (Hq : forall j, (1 <= j < 1 + 2)%nat ->
     chain (run seconds_format fixed_zone_subtract temp_cache [CallFetch; CallFetch]) !! j
       = Some Queued).
  { intros [|[|[|j]]] Hj; try lia; reflexivity. }
  split; [exact Hr|]. split; [lia|]. split; [exact Hf|]. split; [exact Hq|].
  split; [reflexivity|].
  exact (proj1 (proj2 (proj2
    (queued_fetches_are_served seconds_format fixed_zone_subtract
       (fun k => T0 + Z.of_nat k * 600000) (fun k => T0 + Z.of_nat k * 600000)
       (fun k => [mkItem (T0 + Z.of_nat k) []]) 2 _ 1%nat
       Hr (le_n 1) Hf Hq eq_refl)))).
Defined.

(** The fan series after a reset to three days. *)
Lemma reset_then_fetch_witness :
  stat_of SFan = Some StatType.Fan /\
  lastEndTime
    (series_cache SFan
       (grun seconds_format seconds_parse fixed_zone_subtract
          (resetStatHistory 3 the_greenhouse) [Call SFan; Job SFan 1 T0 T0]))
    = Some T0 /\
  execs
    (series_cache SFan
       (grun seconds_format seconds_parse fixed_zone_subtract
          (resetStatHistory 3 the_greenhouse) [Call SFan; Job SFan 1 T0 T0]))
    = [mkExec 1 (At (T0 - 3 * msPerDay)) T0 true].
Proof.
  destruct (reset_then_fetch seconds_format seconds_parse fixed_zone_subtract the_greenhouse 3
              SFan StatType.Fan T0 T0 eq_refl) as (H1 & H2 & _).
  split; [reflexivity|]. split; [exact H2|]. exact H1.
Defined.

(** A response with two items, the newer one first. *)
Lemma read_items_chronological_witness :
  (forall i j a b, (i < j)%nat ->
     [mkItem "1599999000" [("value", "21")];
      mkItem "1599992800" [("value", "20")]] !! i = Some a ->
     [mkItem "1599999000" [("value", "21")];
      mkItem "1599992800" [("value", "20")]] !! j = Some b ->
     seconds_parse (when b) <= seconds_parse (when a)) /\
  exists out,
    then_read_items seconds_parse
      (HttpOk (WithItems [mkItem "1599999000" [("value", "21")];
                          mkItem "1599992800" [("value", "20")]]))
      = Resolves out /\
    forall i j a b, (i < j)%nat -> out !! i = Some a -> out !! j = Some b ->
      when a <= when b.
Proof.
  assert (Hd : forall i j a b, (i < j)%nat ->
     [mkItem "1599999000" [("value", "21")];
      mkItem "1599992800" [("value", "20")]] !! i = Some a ->
     [mkItem "1599999000" [("value", "21")];
      mkItem "1599992800" [("value", "20")]] !! j = Some b ->
     seconds_parse (when b) <= seconds_parse (when a)).
  { intros [|[|i]] [|[|j]] a b Hij Hi Hj; simpl in Hi, Hj;
      try lia; try discriminate.
    injection Hi as <-. injection Hj as <-. vm_compute. discriminate. }
  split; [exact Hd|].
  destruct (read_items_chronological seconds_parse _ Hd) as (out & H1 & H2 & _).
  exists out. split; [exact H1|exact H2].
Defined.
